(** * Webripper: the crawler engine (services/crawler.ts, services/proxy.ts)

    A shallow embedding of the asset-discovery, bounded-download and
    reference-rewriting pipeline of the [Crawler] class, and the properties
    of it that the specification states.

    JavaScript strings are modelled as [string]; [s.length] is
    [String.length].  The registry [assets : Map<string, Asset>] and the
    archive [zip] are [gmap]s keyed by strings, [visitedUrls : Set<string>]
    is a [gset].  The browser's builtins ([URL], [DOMParser],
    [XMLSerializer], [encodeURIComponent], [Math.random]) are collected in a
    [Platform] record that the development is parametric in.  Asynchrony is
    modelled by a step function over explicit continuation points: one step
    is one synchronous run of code between two [await]s. *)

From Stdlib Require Import Ascii String List Arith Lia Bool DecimalString.
From stdpp Require Import gmap strings list fin_maps.

Local Open Scope string_scope.

(** ** JavaScript string primitives *)

Module Js.

(** [p] is a prefix of [s]. *)
Fixpoint prefixb (p s : string) : bool :=
  match p with
  | EmptyString => true
  | String a p' =>
      match s with
      | EmptyString => false
      | String b s' => Ascii.eqb a b && prefixb p' s'
      end
  end.

(** [s.startsWith(p)] *)
Definition startsWith (s p : string) : bool := prefixb p s.

(** [s.substring(0, n)] *)
Definition substring0 (n : nat) (s : string) : string := String.substring 0 n s.

(** [s.slice(n)] for [0 <= n] *)
Fixpoint drop (n : nat) (s : string) : string :=
  match n, s with
  | 0, _ => s
  | S n', String _ s' => drop n' s'
  | S _, EmptyString => EmptyString
  end.

(** [s.includes(c)] for a one-character needle *)
Fixpoint includes_char (c : ascii) (s : string) : bool :=
  match s with
  | EmptyString => false
  | String d s' => if Ascii.eqb c d then true else includes_char c s'
  end.

(** [s.split(c)[0]] for a one-character separator: the text before the
    first [c]. *)
Fixpoint before_first (c : ascii) (s : string) : string :=
  match s with
  | EmptyString => EmptyString
  | String d s' => if Ascii.eqb c d then EmptyString else String d (before_first c s')
  end.

(** [s.split(c).pop()] for a one-character separator: the text after the
    last [c] (all of [s] when [c] does not occur).  [acc] is the segment
    being read. *)
Fixpoint last_segment_from (c : ascii) (acc s : string) : string :=
  match s with
  | EmptyString => acc
  | String d s' =>
      if Ascii.eqb c d then last_segment_from c EmptyString s'
      else last_segment_from c (acc +:+ String d EmptyString) s'
  end.

Definition last_segment (c : ascii) (s : string) : string :=
  last_segment_from c EmptyString s.

(** [s.split(needle).join(repl)]: every occurrence of [needle], found left
    to right without overlap, is replaced by [repl].  [skip] counts the
    characters of the current occurrence still to be dropped.  With an empty
    needle JavaScript splits [s] into its characters, so [repl] is put
    between any two of them. *)
Fixpoint split_join_from (needle repl : string) (skip : nat) (s : string) : string :=
  match s with
  | EmptyString => EmptyString
  | String c s' =>
      match skip with
      | S k => split_join_from needle repl k s'
      | 0 =>
          if prefixb needle s
          then repl +:+ split_join_from needle repl (String.length needle - 1) s'
          else String c (split_join_from needle repl 0 s')
      end
  end.

Fixpoint intersperse (repl : string) (s : string) : string :=
  match s with
  | EmptyString => EmptyString
  | String c EmptyString => s
  | String c s' => String c (repl +:+ intersperse repl s')
  end.

Definition split_join (needle repl s : string) : string :=
  match needle with
  | EmptyString => intersperse repl s
  | _ => split_join_from needle repl 0 s
  end.

(** ASCII lower case, for matching under the [i] flag. *)
Definition to_lower (c : ascii) : ascii :=
  let n := nat_of_ascii c in
  if ((65 <=? n) && (n <=? 90))%nat then ascii_of_nat (n + 32) else c.

Definition is_alnum (c : ascii) : bool :=
  let n := nat_of_ascii c in
  (((48 <=? n) && (n <=? 57)) || ((65 <=? n) && (n <=? 90)) || ((97 <=? n) && (n <=? 122)))%nat.

Fixpoint map_chars (f : ascii -> ascii) (s : string) : string :=
  match s with
  | EmptyString => EmptyString
  | String c s' => String (f c) (map_chars f s')
  end.

(** [String(n)] for a natural number *)
Definition of_nat (n : nat) : string := NilEmpty.string_of_uint (Nat.to_uint n).

(** The text after the first [>], if there is one. *)
Fixpoint after_gt (s : string) : option string :=
  match s with
  | EmptyString => None
  | String c s' => if Ascii.eqb c ">" then Some s' else after_gt s'
  end.

(** [s.replace(/<base[^>]*>/i, '')]: the first base tag is cut out. *)
Fixpoint remove_base_tag (s : string) : string :=
  match s with
  | EmptyString => EmptyString
  | String c s' =>
      if prefixb "<base" (map_chars to_lower (substring0 5 s)) then
        match after_gt (drop 5 s) with
        | Some rest => rest
        | None => String c (remove_base_tag s')
        end
      else String c (remove_base_tag s')
  end.

End Js.

(** ** Data model (types.ts) *)

Inductive LogLevel := INFO | SUCCESS | WARNING | ERROR.

(** [LogEntry]: [id] and [timestamp] come from [Math.random] and
    [Date.now]; no property depends on them and they are left out. *)
Record LogEntry := mkLog { message : string; level : LogLevel }.

(** [Asset['type']] *)
Inductive AssetType := image | css | js | font | video | other.

Record Asset := mkAsset {
  originalUrl : string;
  filename : string;
  type : AssetType;
  path : string
}.

Record CrawlStats := mkStats {
  pagesScanned : nat;
  assetsFound : nat;
  assetsDownloaded : nat;
  totalSize : nat
}.

Inductive AppState := IDLE | CRAWLING | PROCESSING | COMPRESSING | FINISHED | ERROR_STATE.

(** What [zip.file(path, content)] stores: a string or a [Blob]. *)
Inductive Content := Text (s : string) | Blob (b : string).

Global Instance LogLevel_eq_dec : EqDecision LogLevel.
Proof. solve_decision. Defined.
Global Instance AssetType_eq_dec : EqDecision AssetType.
Proof. solve_decision. Defined.
Global Instance Content_eq_dec : EqDecision Content.
Proof. solve_decision. Defined.

(** ** The browser platform *)

(** The parts of a parsed [URL] object the crawler reads. *)
Record URL := mkURL { href : string; pathname : string; hostname : string }.

(** An element of the parsed page, as [querySelectorAll] sees it: its
    upper-case [tagName], its attributes in order, the tag names of its
    ancestors (nearest first) and, for a [base] element, the value of its
    reflected [href] property. *)
Record Element := mkElement {
  tagName : string;
  attrs : list (string * string);
  ancestors : list string;
  hrefProp : string
}.

(** A document is the list of its elements in document order. *)
Definition Document := list Element.

Record Platform := mkPlatform {
  (** [new URL(ref)] and [new URL(ref, base)]; [None] when it throws *)
  newURL : string -> option string -> option URL;
  (** [encodeURIComponent] *)
  encodeURIComponent : string -> string;
  (** [new DOMParser().parseFromString(html, 'text/html')] *)
  parseFromString : string -> Document;
  (** [new XMLSerializer().serializeToString(doc)] *)
  serializeToString : Document -> string;
  (** [Math.random().toString(36).substr(2, 5)]; it is read only on the
      [catch] path of [getFilenameFromUrl] *)
  randomSuffix : string
}.

(** ** The regular expression [urlRegex]

    The source pattern is: the literal text url and an opening parenthesis,
    an optional single or double quote (group 1), a lazy run of any
    characters (group 2), a back-reference to group 1 and a closing
    parenthesis; the flag is g. *)

Module UrlRegex.

Definition squote : ascii := "'"%char.
Definition dquote : ascii := "034"%char.
Definition is_quote (c : ascii) : bool := Ascii.eqb c squote || Ascii.eqb c dquote.

(** [.] does not match a line terminator (line feed, carriage return). *)
Definition is_line_terminator (c : ascii) : bool :=
  Ascii.eqb c "010"%char || Ascii.eqb c "013"%char.

(** The lazy group followed by [closer]: the shortest run of non-terminator characters that is
    followed by [closer]; the run is returned. *)
Fixpoint lazy_until (closer : string) (s : string) : option string :=
  if Js.prefixb closer s then Some EmptyString
  else match s with
       | EmptyString => None
       | String c s' =>
           if is_line_terminator c then None
           else match lazy_until closer s' with
                | Some r => Some (String c r)
                | None => None
                end
       end.

(** One match attempt at the start of [s]: the two capture groups.  The
    optional quote is greedy: the quoted reading is tried first and the
    unquoted one on backtracking. *)
Definition match_at (s : string) : option (string * string) :=
  if Js.prefixb "url(" s then
    let r := Js.drop 4 s in
    let unquoted :=
      match lazy_until ")" r with
      | Some ref => Some (EmptyString, ref)
      | None => None
      end in
    match r with
    | String q r' =>
        if is_quote q then
          match lazy_until (String q ")") r' with
          | Some ref => Some (String q EmptyString, ref)
          | None => unquoted
          end
        else unquoted
    | EmptyString => unquoted
    end
  else None.

(** The text of a match with captures [quote] and [ref]. *)
Definition token (quote ref : string) : string :=
  "url(" +:+ quote +:+ ref +:+ quote +:+ ")".

(** The [while ((match = urlRegex.exec(css)) !== null)] loop: all matches
    from left to right, each search resuming where the last match ended
    ([lastIndex]).  [skip] counts the characters of the current match still
    to be passed. *)
Fixpoint exec_all_from (skip : nat) (s : string) : list (string * string) :=
  match s with
  | EmptyString => []
  | String _ s' =>
      match skip with
      | S k => exec_all_from k s'
      | 0 =>
          match match_at s with
          | Some (q, r) => (q, r) :: exec_all_from (String.length (token q r) - 1) s'
          | None => exec_all_from 0 s'
          end
      end
  end.

Definition exec_all (s : string) : list (string * string) := exec_all_from 0 s.

(** [s.replace(urlRegex, cb)]: text outside the matches is kept, each match
    is replaced by [cb match quote url]. *)
Fixpoint replace_from (cb : string -> string -> string -> string)
    (skip : nat) (s : string) : string :=
  match s with
  | EmptyString => EmptyString
  | String c s' =>
      match skip with
      | S k => replace_from cb k s'
      | 0 =>
          match match_at s with
          | Some (q, r) =>
              cb (token q r) q r +:+ replace_from cb (String.length (token q r) - 1) s'
          | None => String c (replace_from cb 0 s')
          end
      end
  end.

Definition replace (cb : string -> string -> string -> string) (s : string) : string :=
  replace_from cb 0 s.

End UrlRegex.

(** ** The relay fetch client (services/proxy.ts) *)

(** What a request or an [await] yields: a value, or a thrown error with
    its text. *)
Inductive Result (A : Type) := Ok (a : A) | Throw (e : string).
Arguments Ok {A} a.
Arguments Throw {A} e.

(** The state of the network when a request is answered: for a relay URL,
    the body served, or the error ([fetch] rejecting, or
    [Status <code>] when the response is not ok). *)
Definition Network := string -> Result string.

Section Engine.

Variable P : Platform.

(** [PROXIES] *)
Definition PROXIES : list (string -> string) :=
  [ (fun url => "https://api.allorigins.win/raw?url=" +:+ encodeURIComponent P url);
    (fun url => "https://corsproxy.io/?" +:+ encodeURIComponent P url);
    (fun url => "https://api.codetabs.com/v1/proxy?quest=" +:+ encodeURIComponent P url) ].

(** The [for (const proxyGen of PROXIES)] loop: the first relay that
    answers wins, a failing one is passed over. *)
Fixpoint try_proxies (net : Network) (url : string) (lastError : string)
    (ps : list (string -> string)) : Result string :=
  match ps with
  | [] => Throw ("All proxies failed to fetch " +:+ url +:+ ". Last error: " +:+ lastError)
  | proxyGen :: ps' =>
      match net (proxyGen url) with
      | Ok body => Ok body
      | Throw err => try_proxies net url err ps'
      end
  end.

(** [fetchWithProxy(url)]; [lastError] starts out undefined. *)
Definition fetchWithProxy (net : Network) (url : string) : Result string :=
  try_proxies net url "undefined" PROXIES.

(** ** Naming (crawler.ts) *)

Definition getFolderForType (t : AssetType) : string :=
  match t with
  | css => "css"
  | js => "js"
  | image => "images"
  | font => "fonts"
  | _ => "assets"
  end.

Definition getFilenameFromUrl (url : string) (t : AssetType) : string :=
  match newURL P url None with
  | Some u =>
      let name := Js.last_segment "/" (pathname u) in
      let name := match name with EmptyString => "index" | _ => name end in
      let name := Js.before_first "?" name in
      if Js.includes_char "." name then name
      else match t with
           | css => name +:+ ".css"
           | js => name +:+ ".js"
           | image => name +:+ ".png"
           | _ => name +:+ ".dat"
           end
  | None => "file_" +:+ randomSuffix P
  end.

(** ** The crawler object *)

(** [Partial<CrawlStats>], the argument of [updateStats]. *)
Record PartialStats := mkPartial {
  set_pagesScanned : option nat;
  set_assetsFound : option nat;
  set_assetsDownloaded : option nat;
  set_totalSize : option nat
}.

Definition no_update : PartialStats := mkPartial None None None None.

(** [{ ...stats, ...update }] *)
Definition merge_stats (st : CrawlStats) (up : PartialStats) : CrawlStats :=
  {| pagesScanned := default (pagesScanned st) (set_pagesScanned up);
     assetsFound := default (assetsFound st) (set_assetsFound up);
     assetsDownloaded := default (assetsDownloaded st) (set_assetsDownloaded up);
     totalSize := default (totalSize st) (set_totalSize up) |}.

(** The fields of [Crawler], followed by what the session has sent to its
    environment: the entries passed to [onLog], the snapshots passed to
    [onStatsUpdate] and the URLs handed to [fetchWithProxy], each in order
    of occurrence. *)
Record Crawler := mkCrawler {
  url : URL;
  visitedUrls : gset string;
  assets : gmap string Asset;
  stats : CrawlStats;
  zip : gmap string Content;
  onLog : list LogEntry;
  onStatsUpdate : list CrawlStats;
  fetched : list string
}.

(** [new Crawler(options)]; the error is [Invalid URL provided]. *)
Definition new_Crawler (u : string) : Result Crawler :=
  match newURL P u None with
  | Some parsed =>
      Ok {| url := parsed; visitedUrls := ∅; assets := ∅;
            stats := mkStats 0 0 0 0; zip := ∅;
            onLog := []; onStatsUpdate := []; fetched := [] |}
  | None => Throw "Invalid URL provided"
  end.

Definition log (msg : string) (lvl : LogLevel) (c : Crawler) : Crawler :=
  {| url := url c; visitedUrls := visitedUrls c; assets := assets c;
     stats := stats c; zip := zip c;
     onLog := onLog c ++ [mkLog msg lvl];
     onStatsUpdate := onStatsUpdate c; fetched := fetched c |}.

Definition updateStats (up : PartialStats) (c : Crawler) : Crawler :=
  let st := merge_stats (stats c) up in
  {| url := url c; visitedUrls := visitedUrls c; assets := assets c;
     stats := st; zip := zip c; onLog := onLog c;
     onStatsUpdate := onStatsUpdate c ++ [st]; fetched := fetched c |}.

(** [this.visitedUrls.add(u)] *)
Definition visit (u : string) (c : Crawler) : Crawler :=
  {| url := url c; visitedUrls := {[u]} ∪ visitedUrls c; assets := assets c;
     stats := stats c; zip := zip c; onLog := onLog c;
     onStatsUpdate := onStatsUpdate c; fetched := fetched c |}.

(** [this.assets.set(u, a)] *)
Definition assets_set (u : string) (a : Asset) (c : Crawler) : Crawler :=
  {| url := url c; visitedUrls := visitedUrls c; assets := <[u := a]> (assets c);
     stats := stats c; zip := zip c; onLog := onLog c;
     onStatsUpdate := onStatsUpdate c; fetched := fetched c |}.

(** [this.zip.file(p, content)] *)
Definition zip_file (p : string) (content : Content) (c : Crawler) : Crawler :=
  {| url := url c; visitedUrls := visitedUrls c; assets := assets c;
     stats := stats c; zip := <[p := content]> (zip c); onLog := onLog c;
     onStatsUpdate := onStatsUpdate c; fetched := fetched c |}.

(** The call of [fetchWithProxy(u)] inside [fetchText] and [fetchBlob]: the
    request leaves the crawler. *)
Definition request (u : string) (c : Crawler) : Crawler :=
  {| url := url c; visitedUrls := visitedUrls c; assets := assets c;
     stats := stats c; zip := zip c; onLog := onLog c;
     onStatsUpdate := onStatsUpdate c; fetched := fetched c ++ [u] |}.

(** The rest of [fetchText] and [fetchBlob] once the body has arrived:
    [totalSize] grows by its length. *)
Definition body_received (body : string) (c : Crawler) : Crawler :=
  updateStats
    (mkPartial None None None (Some (totalSize (stats c) + String.length body))) c.

(** ** The CSS reference rewriter: [processCssAssets] *)

(** An entry of [assetsToDownload]. *)
Record SubAsset := mkSub { sub_url : string; placeholder : string }.

Definition excluded (ref : string) : bool :=
  Js.startsWith ref "data:" || Js.startsWith ref "#".

(** The body of the extraction loop for one match. *)
Definition extract_one (cssUrl : string) (m : string * string) : list SubAsset :=
  let originalRef := snd m in
  if excluded originalRef then []
  else match newURL P originalRef (Some cssUrl) with
       | Some abs =>
           let absoluteUrl := href abs in
           let filename := getFilenameFromUrl absoluteUrl other in
           [mkSub absoluteUrl ("../assets/" +:+ filename)]
       | None => []
       end.

(** The extraction loop: [assetsToDownload] after the [while]. *)
Definition extract (css cssUrl : string) : list SubAsset :=
  flat_map (extract_one cssUrl) (UrlRegex.exec_all css).

(** The replacement made in the text for one entry of [assetsToDownload]. *)
Definition substitute (a : SubAsset) (processedCss : string) : string :=
  Js.split_join (sub_url a) (placeholder a) processedCss.

(** The callback of the final [processedCss.replace(urlRegex, ...)]. *)
Definition rewrite_token (cssUrl : string) (m quote u : string) : string :=
  if excluded u then m
  else match newURL P u (Some cssUrl) with
       | Some abs =>
           let filename := getFilenameFromUrl (href abs) other in
           "url(" +:+ quote +:+ "../assets/" +:+ filename +:+ quote +:+ ")"
       | None => m
       end.

Definition rewrite_pass (cssUrl processedCss : string) : string :=
  UrlRegex.replace (rewrite_token cssUrl) processedCss.

(** ** Download tasks *)

(** An entry of [assetQueue] (the element is not read again). *)
Record QueueItem := mkItem { item_url : string; item_type : AssetType }.

(** How a call of [downloadAsset] ended: the early [return] on a visited
    URL, the end of the [try] block, or the [catch]. *)
Inductive Outcome := Skipped | Succeeded | Failed.

(** The local variables of a stylesheet task inside the sub-download loop
    of [processCssAssets]. *)
Record CssFrame := mkFrame {
  css_url : string;
  css_filename : string;
  css_zipPath : string;
  current : SubAsset;
  remaining : list SubAsset;
  processedCss : string
}.

(** A call of [downloadAsset], by the [await] it is suspended at:
    - [Queued]: not called yet;
    - [AwaitBody]: inside [fetchText]/[fetchBlob], request outstanding;
    - [CssText]: the stylesheet text has arrived, [processCssAssets] is
      about to be called;
    - [AwaitSub]: inside [fetchBlob] of a sub-asset, request outstanding;
    - [GotSub]: that [fetchBlob] has returned its blob;
    - [Store]: the content is ready, the registration is about to run;
    - [Settled]: the promise is resolved. *)
Inductive Task :=
  | Queued (it : QueueItem)
  | AwaitBody (u : string) (t : AssetType) (filename zipPath : string)
  | CssText (u filename zipPath cssText : string)
  | AwaitSub (f : CssFrame)
  | GotSub (f : CssFrame) (blob : string)
  | Store (u : string) (t : AssetType) (filename zipPath : string) (content : Content)
  | Settled (o : Outcome).

(** The first synchronous stretch of [downloadAsset(u, t)]: the visited
    check and insert, the start line, the names, and the request. *)
Definition downloadAsset_start (it : QueueItem) (c : Crawler) : Crawler * Task :=
  let u := item_url it in
  let t := item_type it in
  if decide (u ∈ visitedUrls c) then (c, Settled Skipped)
  else
    let c := visit u c in
    let c := log ("Fetching " +:+ Js.substring0 50 u +:+ "...") INFO c in
    let filename := getFilenameFromUrl u t in
    let folder := getFolderForType t in
    let zipPath := folder +:+ "/" +:+ filename in
    (request u c, AwaitBody u t filename zipPath).

(** The sub-download loop of [processCssAssets] from its head: entries
    already visited only have their replacement made; the first unvisited
    one is claimed and requested.  After the last entry the rewrite pass
    runs and [processCssAssets] returns. *)
Fixpoint css_loop (u filename zipPath : string) (todo : list SubAsset)
    (processed : string) (c : Crawler) : Crawler * Task :=
  match todo with
  | [] => (c, Store u css filename zipPath (Text (rewrite_pass u processed)))
  | a :: rest =>
      if decide (sub_url a ∈ visitedUrls c)
      then css_loop u filename zipPath rest (substitute a processed) c
      else (request (sub_url a) (visit (sub_url a) c),
            AwaitSub (mkFrame u filename zipPath a rest processed))
  end.

(** The loop after the [try]/[catch] of the current entry. *)
Definition css_next (f : CssFrame) (c : Crawler) : Crawler * Task :=
  css_loop (css_url f) (css_filename f) (css_zipPath f) (remaining f)
    (substitute (current f) (processedCss f)) c.

(** [respond net t c]: the outstanding request of task [t] is answered by
    the network in state [net]. *)
Definition respond (net : Network) (t : Task) (c : Crawler) : option (Crawler * Task) :=
  match t with
  | AwaitBody u ty filename zipPath =>
      match fetchWithProxy net u with
      | Ok body =>
          let c := body_received body c in
          Some (c, match ty with
                   | css => CssText u filename zipPath body
                   | js => Store u ty filename zipPath (Text body)
                   | _ => Store u ty filename zipPath (Blob body)
                   end)
      | Throw e =>
          Some (log ("Failed to download " +:+ u +:+ ": " +:+ e) WARNING c, Settled Failed)
      end
  | AwaitSub f =>
      match fetchWithProxy net (sub_url (current f)) with
      | Ok body => Some (body_received body c, GotSub f body)
      | Throw _ =>
          Some (css_next f (log ("Failed CSS asset: " +:+ sub_url (current f)) WARNING c))
      end
  | _ => None
  end.

(** [resume t c]: the continuation of task [t] runs up to its next [await]
    or to its end. *)
Definition resume (t : Task) (c : Crawler) : option (Crawler * Task) :=
  match t with
  | CssText u filename zipPath cssText =>
      Some (css_loop u filename zipPath (extract cssText u) cssText c)
  | GotSub f blob =>
      let a := current f in
      let c := zip_file ("assets/" +:+ getFilenameFromUrl (sub_url a) other) (Blob blob) c in
      let c := log ("Downloaded CSS asset: " +:+ Js.substring0 30 (sub_url a) +:+ "...") INFO c in
      Some (css_next f c)
  | Store u ty filename zipPath content =>
      let c := assets_set u (mkAsset u filename ty zipPath) c in
      let c := zip_file zipPath content c in
      let c := updateStats
                 (mkPartial None None (Some (assetsDownloaded (stats c) + 1)) None) c in
      Some (c, Settled Succeeded)
  | _ => None
  end.

(** ** The document: discovery and rewriting *)

(** [el.getAttribute(name)] *)
Fixpoint getAttribute (name : string) (l : list (string * string)) : option string :=
  match l with
  | [] => None
  | (k, v) :: l' => if String.eqb k name then Some v else getAttribute name l'
  end.

Fixpoint set_attr (name value : string) (l : list (string * string))
  : list (string * string) :=
  match l with
  | [] => [(name, value)]
  | (k, v) :: l' =>
      if String.eqb k name then (k, value) :: l' else (k, v) :: set_attr name value l'
  end.

(** [el.setAttribute(name, value)] *)
Definition setAttribute (name value : string) (el : Element) : Element :=
  {| tagName := tagName el; attrs := set_attr name value (attrs el);
     ancestors := ancestors el; hrefProp := hrefProp el |}.

Definition has_tag (tag : string) (el : Element) : bool := String.eqb (tagName el) tag.

Definition has_attr (name : string) (el : Element) : bool :=
  match getAttribute name (attrs el) with Some _ => true | None => false end.

Definition attr_is (name value : string) (el : Element) : bool :=
  match getAttribute name (attrs el) with
  | Some v => String.eqb v value
  | None => false
  end.

Definition inside (tag : string) (el : Element) : bool :=
  existsb (String.eqb tag) (ancestors el).

(** The selector of [processAssets]:
    img, link[rel=stylesheet], script, video source, audio source. *)
Definition scanned (el : Element) : bool :=
  has_tag "IMG" el
  || (has_tag "LINK" el && attr_is "rel" "stylesheet" el)
  || has_tag "SCRIPT" el
  || (has_tag "SOURCE" el && inside "VIDEO" el)
  || (has_tag "SOURCE" el && inside "AUDIO" el).

(** [a || ''] on an attribute value *)
Definition or_empty (o : option string) : string := default EmptyString o.

(** The [if]/[else if] chain of [processAssets]: the raw reference and the
    asset type of an element. *)
Definition classify (el : Element) : string * AssetType :=
  if has_tag "LINK" el && attr_is "rel" "stylesheet" el
  then (or_empty (getAttribute "href" (attrs el)), css)
  else if has_tag "SCRIPT" el then (or_empty (getAttribute "src" (attrs el)), js)
  else if has_tag "IMG" el then (or_empty (getAttribute "src" (attrs el)), image)
  else if has_tag "SOURCE" el then (or_empty (getAttribute "src" (attrs el)), video)
  else (EmptyString, other).

(** The body of [elements.forEach] for one element. *)
Definition discover_one (baseUrl : string) (el : Element) : list QueueItem :=
  let '(src, t) := classify el in
  match src with
  | EmptyString => []
  | _ =>
      if excluded src then []
      else match newURL P src (Some baseUrl) with
           | Some abs => [mkItem (href abs) t]
           | None => []
           end
  end.

(** [assetQueue] after the scan. *)
Definition discover (doc : Document) (baseUrl : string) : list QueueItem :=
  flat_map (discover_one baseUrl) (filter (fun el => scanned el) doc).

Definition resolveUrl (c : Crawler) (rel : string) : string :=
  match newURL P rel (Some (href (url c))) with
  | Some abs => href abs
  | None => rel
  end.

(** The common body of the four loops of [rewriteHtml]: on an element the
    selector [sel] matches, a non-empty [attr] whose resolved URL is in the
    registry is set to [folder/filename]. *)
Definition rewrite_element (c : Crawler) (sel : Element -> bool) (attr folder : string)
    (el : Element) : Element :=
  if sel el then
    match getAttribute attr (attrs el) with
    | Some EmptyString | None => el
    | Some v =>
        match assets c !! resolveUrl c v with
        | Some asset => setAttribute attr (folder +:+ "/" +:+ filename asset) el
        | None => el
        end
    end
  else el.

Definition rewriteHtml (c : Crawler) (doc : Document) : Document :=
  let doc := map (rewrite_element c
                    (fun el => has_tag "LINK" el && attr_is "rel" "stylesheet" el)
                    "href" "css") doc in
  let doc := map (rewrite_element c
                    (fun el => has_tag "SCRIPT" el && has_attr "src" el) "src" "js") doc in
  let doc := map (rewrite_element c
                    (fun el => has_tag "IMG" el && has_attr "src" el) "src" "images") doc in
  map (rewrite_element c
         (fun el => (has_tag "SOURCE" el || has_tag "VIDEO" el) && has_attr "src" el)
         "src" "assets") doc.

(** ** The session: [start] and [processAssets] *)

Definition CONCURRENCY : nat := 5.

(** [l.slice(i, j)] for [i <= j] *)
Definition slice {A} (i j : nat) (l : list A) : list A := take (j - i) (drop i l).

(** Where [start] is suspended:
    - [Created]: the constructor has returned;
    - [AwaitPage]: the page request is outstanding;
    - [GotPage]: [fetchText] has the page text;
    - [Downloading]: inside [processAssets], at the [await Promise.all] of
      the chunk that starts at index [i];
    - [AwaitZip]: at [await zip.generateAsync];
    - [Finished]: [start] has returned;
    - [Errored]: [start] has thrown. *)
Inductive Phase :=
  | Created | AwaitPage | GotPage (html : string)
  | Downloading | AwaitZip | Finished | Errored.

(** The crawler, the locals of [start] and [processAssets] that live across
    an [await] ([doc], [assetQueue], the loop index [i]), one [Task] per
    queue entry, and the file name given to [saveAs]. *)
Record Session := mkSession {
  crawler : Crawler;
  phase : Phase;
  doc : Document;
  assetQueue : list QueueItem;
  i : nat;
  tasks : list Task;
  saved : option string
}.

Definition is_settled (t : Task) : bool :=
  match t with Settled _ => true | _ => false end.

(** [chunk.map(item => this.downloadAsset(item.url, item.type))]: the calls
    run one after the other, each up to its first [await]. *)
Fixpoint start_all (chunk : list QueueItem) (c : Crawler) : Crawler * list Task :=
  match chunk with
  | [] => (c, [])
  | it :: chunk' =>
      let '(c1, t) := downloadAsset_start it c in
      let '(c2, ts) := start_all chunk' c1 in
      (c2, t :: ts)
  end.

(** One turn of the [for] loop of [processAssets] at index [k]: the chunk
    is sliced off the queue and its tasks are started. *)
Definition start_chunk (k : nat) (s : Session) : Session :=
  let chunk := slice k (k + CONCURRENCY) (assetQueue s) in
  let '(c, started) := start_all chunk (crawler s) in
  {| crawler := c; phase := Downloading; doc := doc s; assetQueue := assetQueue s;
     i := k;
     tasks := take k (tasks s) ++ started ++ drop (k + CONCURRENCY) (tasks s);
     saved := saved s |}.

Definition with_crawler (c : Crawler) (ph : Phase) (s : Session) : Session :=
  {| crawler := c; phase := ph; doc := doc s; assetQueue := assetQueue s;
     i := i s; tasks := tasks s; saved := saved s |}.

Definition with_task (k : nat) (ct : Crawler * Task) (s : Session) : Session :=
  {| crawler := fst ct; phase := phase s; doc := doc s; assetQueue := assetQueue s;
     i := i s; tasks := <[k := snd ct]> (tasks s); saved := saved s |}.

(** The first [base] element of the document. *)
Definition querySelector_base (d : Document) : option Element :=
  head (filter (fun el => has_tag "BASE" el) d).

(** Steps 1 to 4 of [start] after the page text has arrived, up to the
    first [await] of [processAssets]. *)
Definition scan_page (html : string) (s : Session) : Session :=
  let c := log "Main HTML downloaded successfully." SUCCESS (crawler s) in
  let c := updateStats (mkPartial (Some 1) None None None) c in
  let d := parseFromString P html in
  let base :=
    match querySelector_base d with
    | Some baseTag =>
        match newURL P (hrefProp baseTag) (Some (href (url c))) with
        | Some b => Ok (href b)
        | None => Throw "Invalid URL"
        end
    | None => Ok (href (url c))
    end in
  match base with
  | Throw e =>
      {| crawler := log ("Crawl failed: " +:+ e) ERROR c; phase := Errored; doc := d;
         assetQueue := []; i := 0; tasks := []; saved := saved s |}
  | Ok baseUrl =>
      let queue := discover d baseUrl in
      let c := updateStats (mkPartial None (Some (length queue)) None None) c in
      let c := log ("Found " +:+ Js.of_nat (length queue) +:+ " linked assets. Downloading...")
                 INFO c in
      start_chunk 0
        {| crawler := c; phase := Downloading; doc := d; assetQueue := queue;
           i := 0; tasks := Queued <$> queue; saved := saved s |}
  end.

(** Steps 5 to 7 of [start], up to [await zip.generateAsync]. *)
Definition finish_page (s : Session) : Session :=
  let c := crawler s in
  let d := rewriteHtml c (doc s) in
  let finalHtml := serializeToString P d in
  let finalHtmlClean := Js.remove_base_tag finalHtml in
  let c := zip_file "index.html" (Text finalHtmlClean) c in
  let c := log "Generated index.html" SUCCESS c in
  let c := log "Compressing files..." INFO c in
  {| crawler := c; phase := AwaitZip; doc := d; assetQueue := assetQueue s;
     i := i s; tasks := tasks s; saved := saved s |}.

(** [hostname.replace(/[^a-z0-9]/gi, '_')] *)
Definition safeName (c : Crawler) : string :=
  Js.map_chars (fun ch => if Js.is_alnum ch then ch else "_"%char) (hostname (url c)).

(** What can happen next: [start] is called, a request is answered, a
    suspended continuation is run, or the archive is generated. *)
Inductive Event :=
  | CallStart
  | PageResponse (net : Network)
  | Respond (k : nat) (net : Network)
  | Resume (k : nat)
  | Continue
  | ZipGenerated (r : Result unit).

(** One step of the session; [None] when the event cannot happen in this
    state. *)
Definition step (e : Event) (s : Session) : option Session :=
  match e, phase s with
  | CallStart, Created =>
      let c := log ("Starting crawl for " +:+ href (url (crawler s)) +:+ "...") INFO
                 (crawler s) in
      Some (with_crawler (request (href (url c)) c) AwaitPage s)
  | PageResponse net, AwaitPage =>
      match fetchWithProxy net (href (url (crawler s))) with
      | Ok html => Some (with_crawler (body_received html (crawler s)) (GotPage html) s)
      | Throw e =>
          Some (with_crawler (log ("Crawl failed: " +:+ e) ERROR (crawler s)) Errored s)
      end
  | Continue, GotPage html => Some (scan_page html s)
  | Respond k net, Downloading =>
      t ← tasks s !! k;
      ct ← respond net t (crawler s);
      Some (with_task k ct s)
  | Resume k, Downloading =>
      t ← tasks s !! k;
      ct ← resume t (crawler s);
      Some (with_task k ct s)
  | Continue, Downloading =>
      if forallb is_settled (slice (i s) (i s + CONCURRENCY) (tasks s)) then
        if (i s + CONCURRENCY <? length (assetQueue s))%nat
        then Some (start_chunk (i s + CONCURRENCY) s)
        else Some (finish_page s)
      else None
  | ZipGenerated (Ok _), AwaitZip =>
      let name := safeName (crawler s) +:+ "_source.zip" in
      Some {| crawler := log "ZIP file downloaded!" SUCCESS (crawler s);
              phase := Finished; doc := doc s; assetQueue := assetQueue s;
              i := i s; tasks := tasks s; saved := Some name |}
  | ZipGenerated (Throw e), AwaitZip =>
      Some (with_crawler (log ("Crawl failed: " +:+ e) ERROR (crawler s)) Errored s)
  | _, _ => None
  end.

(** A run: the events happen in order. *)
Fixpoint run (es : list Event) (s : Session) : option Session :=
  match es with
  | [] => Some s
  | e :: es' => s' ← step e s; run es' s'
  end.

(** The session right after [new Crawler]. *)
Definition new_session (c : Crawler) : Session :=
  {| crawler := c; phase := Created; doc := []; assetQueue := []; i := 0;
     tasks := []; saved := None |}.

(** The states a session can be in. *)
Definition reachable (s : Session) : Prop :=
  exists (u : string) (c : Crawler) (es : list Event),
    new_Crawler u = Ok c /\ run es (new_session c) = Some s.

End Engine.

(** ** The host application: [handleStart] (App.tsx) *)

(** The synchronous stretch of [handleStart]: with an empty input nothing
    happens; otherwise the state becomes [CRAWLING], the crawler is built
    and [start] is called, or the state becomes [ERROR] when the
    constructor throws. *)
Definition handleStart (P : Platform) (input : string) (st : AppState)
  : AppState * option Session :=
  match input with
  | EmptyString => (st, None)
  | _ =>
      match new_Crawler P input with
      | Ok c => (CRAWLING, step P CallStart (new_session c))
      | Throw _ => (ERROR_STATE, None)
      end
  end.

(** ** A concrete platform

    A small URL resolver for the examples: absolute [http] and [https]
    URLs (scheme, host, path, rest), and references resolved against such a
    base by path, with dot segments removed.  A host is refused when it is
    empty or contains a space, as the URL standard does.  The document a
    page parses to is given directly. *)

Module Toy.

Fixpoint until_any (stops : string) (s : string) : string * string :=
  match s with
  | EmptyString => (EmptyString, EmptyString)
  | String c s' =>
      if Js.includes_char c stops then (EmptyString, s)
      else let '(a, b) := until_any stops s' in (String c a, b)
  end.

Fixpoint split_slash_from (acc : string) (s : string) : list string :=
  match s with
  | EmptyString => [acc]
  | String c s' =>
      if Ascii.eqb c "/" then acc :: split_slash_from EmptyString s'
      else split_slash_from (acc +:+ String c EmptyString) s'
  end.

(** Dot-segment removal over the segments of a path; [stack] holds the
    segments kept so far, last first. *)
Fixpoint remove_dots (stack : list string) (segs : list string) : list string :=
  match segs with
  | [] => rev stack
  | seg :: rest =>
      let last := match rest with [] => true | _ => false end in
      if String.eqb seg ".." then
        remove_dots (if last then EmptyString :: tail stack else tail stack) rest
      else if String.eqb seg "." then
        remove_dots (if last then EmptyString :: stack else stack) rest
      else remove_dots (seg :: stack) rest
  end.

Fixpoint join_slash (segs : list string) : string :=
  match segs with
  | [] => EmptyString
  | seg :: rest => "/" +:+ seg +:+ join_slash rest
  end.

Definition normalize_path (p : string) : string :=
  match split_slash_from EmptyString p with
  | _ :: segs => match remove_dots [] segs with
                 | [] => "/"
                 | l => join_slash l
                 end
  | [] => "/"
  end.

(** The path up to and including its last slash. *)
Definition directory (p : string) : string :=
  match rev (split_slash_from EmptyString p) with
  | _ :: front => match rev front with
                  | _ :: segs => join_slash segs +:+ "/"
                  | [] => "/"
                  end
  | [] => "/"
  end.

Definition scheme_of (s : string) : option (string * string) :=
  if Js.prefixb "https://" s then Some ("https://", Js.drop 8 s)
  else if Js.prefixb "http://" s then Some ("http://", Js.drop 7 s)
  else None.

Definition build (scheme host p rest : string) : URL :=
  let p := normalize_path p in
  {| href := scheme +:+ host +:+ p +:+ rest; pathname := p; hostname := host |}.

Definition parse_absolute (s : string) : option (option (string * URL)) :=
  match scheme_of s with
  | None => None
  | Some (scheme, after) =>
      let '(host, tl) := until_any "/?#" after in
      if String.eqb host EmptyString || Js.includes_char " " host then Some None
      else
        let '(p, rest) := until_any "?#" tl in
        Some (Some (scheme, build scheme host p rest))
  end.

Definition new_URL (ref : string) (base : option string) : option URL :=
  match parse_absolute ref with
  | Some r => option_map snd r
  | None =>
      match base with
      | None => None
      | Some b =>
          match parse_absolute b with
          | Some (Some (scheme, bu)) =>
              let '(p, rest) := until_any "?#" ref in
              match ref with
              | EmptyString => Some bu
              | String c _ =>
                  if Ascii.eqb c "/" then Some (build scheme (hostname bu) p rest)
                  else Some (build scheme (hostname bu) (directory (pathname bu) +:+ p) rest)
              end
          | _ => None
          end
      end
  end.

Fixpoint render_attrs (l : list (string * string)) : string :=
  match l with
  | [] => EmptyString
  | (k, v) :: l' => " " +:+ k +:+ "=" +:+ v +:+ render_attrs l'
  end.

Fixpoint render (d : Document) : string :=
  match d with
  | [] => EmptyString
  | el :: d' => "<" +:+ tagName el +:+ render_attrs (attrs el) +:+ ">" +:+ render d'
  end.

(** The platform in which every page parses to [d]. *)
Definition platform (d : Document) : Platform :=
  {| newURL := new_URL;
     encodeURIComponent := fun s => s;
     parseFromString := fun _ => d;
     serializeToString := render;
     randomSuffix := "k3x9q" |}.

(** A network that serves [body u] for the resource [u] through the first
    relay, and fails where [body u] is [None]. *)
Definition network (body : string -> option string) : Network :=
  fun relayUrl =>
    match body (Js.drop (String.length "https://api.allorigins.win/raw?url=") relayUrl) with
    | Some b => if Js.prefixb "https://api.allorigins.win/raw?url=" relayUrl
                then Ok b else Throw "Error: Status 404"
    | None => Throw "Error: Status 404"
    end.

End Toy.

(** ** Observations on sessions *)

Definition has_outcome (o : Outcome) (t : Task) : bool :=
  match t, o with
  | Settled Skipped, Skipped | Settled Succeeded, Succeeded | Settled Failed, Failed => true
  | _, _ => false
  end.

(** How many calls of [downloadAsset] have ended with outcome [o]. *)
Definition count_outcome (o : Outcome) (ts : list Task) : nat :=
  length (filter (fun t => has_outcome o t) ts).

(** [downloadAsset] has been called for this queue entry. *)
Definition is_started (t : Task) : bool :=
  match t with Queued _ => false | _ => true end.

(** The call is suspended at an [await]. *)
Definition in_flight (t : Task) : bool := is_started t && negb (is_settled t).

(** The call went past the visited check. *)
Definition is_launched (t : Task) : bool := is_started t && negb (has_outcome Skipped t).

(** The requests made by [downloadAsset] and [processCssAssets]: all but
    the first request of the session, which is the page's. *)
Definition asset_requests (c : Crawler) : list string := tail (fetched c).

(** The start line of a task and the line of a failed task. *)
Definition is_start_line (e : LogEntry) : bool :=
  Js.prefixb "Fetching " (message e) && bool_decide (level e = INFO).

Definition is_failure_line (e : LogEntry) : bool :=
  Js.prefixb "Failed to download " (message e) && bool_decide (level e = WARNING).

Definition count_lines (f : LogEntry -> bool) (c : Crawler) : nat :=
  length (filter (fun e => f e) (onLog c)).

(** The lines [start] itself logs at level [SUCCESS]. *)
Definition driver_success_line (e : LogEntry) : Prop :=
  message e = "Main HTML downloaded successfully."
  \/ message e = "Generated index.html"
  \/ message e = "ZIP file downloaded!".

(** The names kept in a suspended task are those [downloadAsset] computed
    for its URL and type. *)
Definition named (P : Platform) (u : string) (t : AssetType) (fname zipPath : string) : Prop :=
  fname = getFilenameFromUrl P u t
  /\ zipPath = getFolderForType t +:+ "/" +:+ fname.

Definition task_named (P : Platform) (t : Task) : Prop :=
  match t with
  | AwaitBody u ty f z | Store u ty f z _ => named P u ty f z
  | CssText u f z _ => named P u css f z
  | AwaitSub fr | GotSub fr _ =>
      named P (css_url fr) css (css_filename fr) (css_zipPath fr)
  | _ => True
  end.

(** An asset of the registry carries the names derived from its key. *)
Definition asset_named (P : Platform) (u : string) (a : Asset) : Prop :=
  originalUrl a = u /\ named P u (type a) (filename a) (path a).

(** ** Invariants of the session *)

(** The shape of the task list: before the scan there are no tasks; while
    downloading, the entries before the current chunk are settled, those of
    the chunk are started and those after it are still queued; afterwards
    all are settled. *)
Definition shape (s : Session) : Prop :=
  length (tasks s) = length (assetQueue s)
  /\ match phase s with
     | Created | AwaitPage | GotPage _ => tasks s = []
     | Downloading =>
         Forall (fun t => is_settled t) (take (i s) (tasks s))
         /\ Forall (fun t => is_started t) (slice (i s) (i s + CONCURRENCY) (tasks s))
         /\ drop (i s + CONCURRENCY) (tasks s)
            = Queued <$> drop (i s + CONCURRENCY) (assetQueue s)
     | AwaitZip | Finished | Errored => Forall (fun t => is_settled t) (tasks s)
     end.

(** The counters agree with the task list, and every snapshot sent to
    [onStatsUpdate] has [assetsDownloaded <= assetsFound]. *)
Definition counted (s : Session) : Prop :=
  assetsFound (stats (crawler s)) = length (tasks s)
  /\ assetsDownloaded (stats (crawler s)) = count_outcome Succeeded (tasks s)
  /\ Forall (fun st => assetsDownloaded st <= assetsFound st) (onStatsUpdate (crawler s)).

(** After the page request, the requests are the page's followed by the
    asset requests; every asset request was claimed in the visited set
    first, and no URL was requested twice by the downloader. *)
Definition claims_ok (c : Crawler) : Prop :=
  fetched c = href (url c) :: asset_requests c
  /\ NoDup (asset_requests c)
  /\ (forall u, u ∈ asset_requests c -> u ∈ visitedUrls c).

Definition claimed (s : Session) : Prop :=
  match phase s with
  | Created => fetched (crawler s) = []
  | _ => claims_ok (crawler s)
  end.

(** The registry and the suspended tasks carry the names derived from
    their URLs. *)
Definition registered (P : Platform) (s : Session) : Prop :=
  (forall u a, assets (crawler s) !! u = Some a -> asset_named P u a)
  /\ Forall (task_named P) (tasks s).

(** The log lines of the tasks agree with the task list. *)
Definition logged (s : Session) : Prop :=
  count_lines is_start_line (crawler s)
    = length (filter (fun t => is_launched t) (tasks s))
  /\ count_lines is_failure_line (crawler s) = count_outcome Failed (tasks s)
  /\ (forall e, e ∈ onLog (crawler s) -> level e = SUCCESS -> driver_success_line e).

(** The registry, the archive, the counters and the page URL are the same. *)
Definition same_books (c c' : Crawler) : Prop :=
  stats c' = stats c /\ onStatsUpdate c' = onStatsUpdate c
  /\ assets c' = assets c /\ zip c' = zip c /\ url c' = url c.

(** The session reached from the input [u] by the events [es]. *)
Definition session_after (P : Platform) (u : string) (es : list Event) : option Session :=
  match new_Crawler P u with
  | Ok c => run P es (new_session c)
  | Throw _ => None
  end.

(** ** Example sessions *)

Module Example.

(** A network serving the listed resources. *)
Fixpoint serve (table : list (string * string)) (u : string) : option string :=
  match table with
  | [] => None
  | (k, v) :: table' => if String.eqb k u then Some v else serve table' u
  end.

(** A page with one stylesheet whose text embeds one image. *)
Definition styled_page : Document :=
  [ mkElement "LINK" [("rel", "stylesheet"); ("href", "css/style.css")] [] "" ].

Definition styled_net : Network :=
  Toy.network (serve
    [ ("https://example.com/", "<html>");
      ("https://example.com/css/style.css", "body{background-image:url(img.png)}");
      ("https://example.com/css/img.png", "PNG") ]).

Definition styled_run : list Event :=
  [ CallStart; PageResponse styled_net; Continue;
    Respond 0 styled_net; Resume 0; Respond 0 styled_net; Resume 0; Resume 0;
    Continue; ZipGenerated (Ok tt) ].

(** A page with six images, the last of which cannot be fetched. *)
Definition img (src : string) : Element := mkElement "IMG" [("src", src)] [] "".

Definition gallery_page : Document :=
  [ img "1.png"; img "2.png"; img "3.png"; img "4.png"; img "5.png"; img "6.png" ].

Definition gallery_net : Network :=
  Toy.network (serve
    [ ("https://example.com/", "<html>");
      ("https://example.com/1.png", "one"); ("https://example.com/2.png", "two");
      ("https://example.com/3.png", "three"); ("https://example.com/4.png", "four");
      ("https://example.com/5.png", "five") ]).

(** The first chunk is served out of order; the sixth image starts after
    it. *)
Definition gallery_first_chunk : list Event :=
  [ CallStart; PageResponse gallery_net; Continue;
    Respond 3 gallery_net; Respond 0 gallery_net; Resume 0; Respond 4 gallery_net;
    Resume 3; Respond 1 gallery_net; Respond 2 gallery_net; Resume 2; Resume 1; Resume 4;
    Continue ].

Definition gallery_run : list Event :=
  gallery_first_chunk ++ [ Respond 5 gallery_net; Continue; ZipGenerated (Ok tt) ].

(** A page that refers to its own URL as an image. *)
Definition self_page : Document := [ img "/" ].

Definition self_net : Network :=
  Toy.network (serve [ ("https://example.com/", "<html>") ]).

Definition self_run : list Event :=
  [ CallStart; PageResponse self_net; Continue ].

(** A page with two images of the same file name on different hosts. *)
Definition twin_page : Document :=
  [ img "https://a.example/x.png"; img "https://b.example/x.png" ].

Definition twin_net : Network :=
  Toy.network (serve
    [ ("https://example.com/", "<html>");
      ("https://a.example/x.png", "first"); ("https://b.example/x.png", "second") ]).

Definition twin_run : list Event :=
  [ CallStart; PageResponse twin_net; Continue;
    Respond 0 twin_net; Resume 0; Respond 1 twin_net; Resume 1 ].


(** A page whose [base] element points to another host. *)
Definition based_page : Document :=
  [ mkElement "BASE" [("href", "https://cdn.example/")] [] "https://cdn.example/";
    img "a.png" ].

Definition based_net : Network :=
  Toy.network (serve
    [ ("https://example.com/", "<html>"); ("https://cdn.example/a.png", "PNG") ]).

Definition based_run : list Event :=
  [ CallStart; PageResponse based_net; Continue; Respond 0 based_net; Resume 0; Continue ].

(** A page with one script. *)
Definition script_page : Document := [ mkElement "SCRIPT" [("src", "app.js")] [] "" ].

Definition script_net : Network :=
  Toy.network (serve
    [ ("https://example.com/", "<html>"); ("https://example.com/app.js", "code") ]).

Definition script_run : list Event :=
  [ CallStart; PageResponse script_net; Continue; Respond 0 script_net; Resume 0;
    Continue; ZipGenerated (Ok tt) ].

(** A page showing the same image twice, with a script that cannot be
    fetched. *)
Definition repeated_page : Document :=
  [ img "a.png"; img "a.png"; mkElement "SCRIPT" [("src", "app.js")] [] "" ].

Definition repeated_net : Network :=
  Toy.network (serve
    [ ("https://example.com/", "<html>"); ("https://example.com/a.png", "PNG") ]).

Definition repeated_run : list Event :=
  [ CallStart; PageResponse repeated_net; Continue;
    Respond 0 repeated_net; Resume 0; Respond 2 repeated_net;
    Continue; ZipGenerated (Ok tt) ].

End Example.


(** The URL whose request a task is waiting for. *)
Definition awaited (t : Task) : option string :=
  match t with
  | AwaitBody u _ _ _ => Some u
  | AwaitSub f => Some (sub_url (current f))
  | _ => None
  end.


(** The length of the body that the network in state [net] serves to the
    request task [t] is waiting for ([0] when the request fails). *)
Definition received (P : Platform) (net : Network) (t : Task) : nat :=
  match awaited t with
  | Some u => match fetchWithProxy P net u with
              | Ok body => String.length body
              | Throw _ => 0
              end
  | None => 0
  end.

(** A bound on the number of steps a task inside or after the sub-download
    loop still needs: two per remaining sub-asset and one for the
    registration. *)
Definition weight (t : Task) : nat :=
  match t with
  | Store _ _ _ _ _ => 1
  | GotSub f _ => 2 * length (remaining f) + 2
  | AwaitSub f => 2 * length (remaining f) + 3
  | _ => 0
  end.

(** The task is past the arrival of its own body. *)
Definition past_body (t : Task) : bool :=
  match t with Store _ _ _ _ _ | GotSub _ _ | AwaitSub _ => true | _ => false end.

(** The part of a session the tasks do not change. *)
Definition same_loop (s s' : Session) : Prop :=
  phase s' = phase s /\ i s' = i s /\ assetQueue s' = assetQueue s /\ doc s' = doc s.

(** Every request answered in [es] is answered by the network in state
    [net], and the archive is generated without error. *)
Definition served_by (net : Network) (es : list Event) : Prop :=
  Forall (fun e => match e with
                   | Respond _ n | PageResponse n => n = net
                   | ZipGenerated r => r = Ok tt
                   | _ => True
                   end) es.

(** Every character of [s] satisfies [f]. *)
Fixpoint all_chars (f : ascii -> bool) (s : string) : bool :=
  match s with
  | EmptyString => true
  | String c s' => f c && all_chars f s'
  end.

(** [needle] occurs in [s] at some position. *)
Fixpoint occurs (needle s : string) : bool :=
  Js.prefixb needle s
  || match s with
     | EmptyString => false
     | String _ s' => occurs needle s'
     end.

(** The asset types the scan of [processAssets] can assign. *)
Definition is_scanned_type (t : AssetType) : bool :=
  match t with css | js | image | video => true | font | other => false end.

(** The attribute and the folder prefix the loops of [rewriteHtml] use for
    an element: the first of its four selectors that matches. *)
Definition rewrite_target (el : Element) : option (string * string) :=
  if has_tag "LINK" el && attr_is "rel" "stylesheet" el then Some ("href", "css")
  else if has_tag "SCRIPT" el && has_attr "src" el then Some ("src", "js")
  else if has_tag "IMG" el && has_attr "src" el then Some ("src", "images")
  else if (has_tag "SOURCE" el || has_tag "VIDEO" el) && has_attr "src" el
       then Some ("src", "assets")
  else None.

(** The snapshot sent last to [onStatsUpdate] is the current [stats];
    before the first update the counters are all zero. *)
Definition snapshot_ok (c : Crawler) : Prop :=
  (onStatsUpdate c = [] /\ stats c = mkStats 0 0 0 0)
  \/ last (onStatsUpdate c) = Some (stats c).

Definition is_error_line (e : LogEntry) : bool := bool_decide (level e = ERROR).

(** What [start] itself maintains: the snapshots, the saved file, the
    [ERROR] lines and [pagesScanned], by phase. *)
Definition driver_state (s : Session) : Prop :=
  snapshot_ok (crawler s)
  /\ match phase s with
     | Finished => saved s = Some (safeName (crawler s) +:+ "_source.zip")
     | _ => saved s = None
     end
  /\ count_lines is_error_line (crawler s)
     = match phase s with Errored => 1 | _ => 0 end
  /\ match phase s with
     | Created | AwaitPage | GotPage _ => pagesScanned (stats (crawler s)) = 0
     | Errored => pagesScanned (stats (crawler s)) <= 1
     | _ => pagesScanned (stats (crawler s)) = 1
     end.

(** One counter record is pointwise below another. *)
Definition stats_le (a b : CrawlStats) : Prop :=
  pagesScanned a <= pagesScanned b /\ assetsFound a <= assetsFound b
  /\ assetsDownloaded a <= assetsDownloaded b /\ totalSize a <= totalSize b.

(** A stretch of code of a task sends no [ERROR] line and keeps the
    snapshots in step with the counters. *)
Definition quiet (c c' : Crawler) : Prop :=
  (snapshot_ok c -> snapshot_ok c')
  /\ count_lines is_error_line c' = count_lines is_error_line c.

(** The asset types fetched as text. *)
Definition text_type (t : AssetType) : bool :=
  match t with css | js => true | _ => false end.

Definition content_is_text (x : Content) : bool :=
  match x with Text _ => true | Blob _ => false end.

(** An entry of the archive is the page, or lies in the folder of a
    scanned type and is text or binary as that type is fetched. *)
Definition entry_ok (p : string) (x : Content) : Prop :=
  (p = "index.html" /\ content_is_text x = true)
  \/ exists t name,
       is_scanned_type t = true
       /\ p = getFolderForType t +:+ "/" +:+ name
       /\ content_is_text x = text_type t.

(** A task belongs to an item of the queue and holds content of the kind
    its type is fetched as. *)
Definition task_ok (q : list QueueItem) (t : Task) : Prop :=
  match t with
  | AwaitBody u ty _ _ => mkItem u ty ∈ q
  | Store u ty _ _ x => mkItem u ty ∈ q /\ content_is_text x = text_type ty
  | CssText u _ _ _ => mkItem u css ∈ q
  | AwaitSub f | GotSub f _ => mkItem (css_url f) css ∈ q
  | _ => True
  end.

(** The archive and the registry: every entry is well placed, every
    registered asset belongs to an item of the queue and has its entry, and
    [index.html] is present exactly from the end of [processAssets] on. *)
Definition stored (P : Platform) (s : Session) : Prop :=
  (forall p x, zip (crawler s) !! p = Some x -> entry_ok p x)
  /\ (forall u a, assets (crawler s) !! u = Some a ->
        mkItem u (type a) ∈ assetQueue s /\ is_Some (zip (crawler s) !! path a))
  /\ Forall (task_ok (assetQueue s)) (tasks s)
  /\ Forall (fun it => is_scanned_type (item_type it)) (assetQueue s)
  /\ match phase s with
     | AwaitZip | Finished =>
         zip (crawler s) !! "index.html"
         = Some (Text (Js.remove_base_tag (serializeToString P (doc s))))
     | Errored => True
     | _ => zip (crawler s) !! "index.html" = None
     end.

(** The archive and the registry while downloads run. *)
Definition books_ok (q : list QueueItem) (c : Crawler) : Prop :=
  (forall p x, zip c !! p = Some x -> entry_ok p x)
  /\ (forall u a, assets c !! u = Some a ->
        mkItem u (type a) ∈ q /\ is_Some (zip c !! path a))
  /\ zip c !! "index.html" = None.

Section Properties.

Local Open Scope list_scope.

Variable P : Platform.

Lemma run_invariant (Inv : Session -> Prop) :
  (forall e s s', Inv s -> step P e s = Some s' -> Inv s') ->
  forall es s s', Inv s -> run P es s = Some s' -> Inv s'.
Proof.
  intros Hstep es. induction es as [|e es IH]; intros s s' Hs Hrun; simpl in Hrun.
  - by simplify_eq.
  - destruct (step P e s) as [s1|] eqn:E; simpl in Hrun; [|done].
    eapply IH; [|exact Hrun]. eapply Hstep; eauto.
Qed.

Lemma reachable_invariant (Inv : Session -> Prop) :
  (forall u c, new_Crawler P u = Ok c -> Inv (new_session c)) ->
  (forall e s s', Inv s -> step P e s = Some s' -> Inv s') ->
  forall s, reachable P s -> Inv s.
Proof.
  intros H0 Hstep s (u & c & es & Hnew & Hrun).
  eapply run_invariant; eauto.
Qed.

(** *** What one synchronous stretch of a task can do *)

Lemma downloadAsset_start_started it c c' t :
  downloadAsset_start P it c = (c', t) -> is_started t /\ ~ is_settled t \/ t = Settled Skipped.
Proof.
  unfold downloadAsset_start. case_decide; intros [= <- <-]; [by right|left; simpl; auto].
Qed.

Lemma start_all_length chunk : forall c c' ts,
  start_all P chunk c = (c', ts) -> length ts = length chunk.
Proof.
  induction chunk as [|it chunk IH]; intros c c' ts; simpl.
  - by intros [= <- <-].
  - destruct (downloadAsset_start P it c) as [c1 t].
    destruct (start_all P chunk c1) as [c2 ts'] eqn:E.
    intros [= <- <-]. simpl. f_equal. eauto.
Qed.

Lemma start_all_started chunk : forall c c' ts,
  start_all P chunk c = (c', ts) -> Forall (fun t => is_started t) ts.
Proof.
  induction chunk as [|it chunk IH]; intros c c' ts; simpl.
  - by intros [= <- <-].
  - destruct (downloadAsset_start P it c) as [c1 t] eqn:E1.
    destruct (start_all P chunk c1) as [c2 ts'] eqn:E.
    intros [= <- <-]. constructor; [|eauto].
    apply downloadAsset_start_started in E1 as [[? _]| ->]; done.
Qed.

Lemma css_loop_started u f z todo : forall processed c c' t,
  css_loop P u f z todo processed c = (c', t) -> is_started t /\ ~ is_settled t.
Proof.
  induction todo as [|a rest IH]; intros processed c c' t; simpl.
  - intros [= <- <-]. simpl. auto.
  - case_decide; [by eauto|]. intros [= <- <-]. simpl. auto.
Qed.

Lemma respond_in_flight net t c c' t' :
  respond P net t c = Some (c', t') -> in_flight t /\ is_started t'.
Proof.
  destruct t; simpl; try done.
  - destruct (fetchWithProxy P net u); intros [= <- <-]; [by destruct t|done].
  - destruct (fetchWithProxy P net _); [by intros [= <- <-]|].
    unfold css_next. destruct (css_loop _ _ _ _ _ _ _) eqn:E. intros [= <- <-].
    by apply css_loop_started in E as [? _].
Qed.

Lemma resume_in_flight t c c' t' :
  resume P t c = Some (c', t') -> in_flight t /\ is_started t'.
Proof.
  destruct t; simpl; try done.
  - destruct (css_loop _ _ _ _ _ _ _) eqn:E. intros [= <- <-].
    by apply css_loop_started in E as [? _].
  - unfold css_next. destruct (css_loop _ _ _ _ _ _ _) eqn:E. intros [= <- <-].
    by apply css_loop_started in E as [? _].
  - by intros [= <- <-].
Qed.

(** *** The shape of the task list *)

Lemma in_flight_in_chunk s k t :
  shape s -> phase s = Downloading -> tasks s !! k = Some t -> in_flight t ->
  i s <= k < i s + CONCURRENCY.
Proof.
  intros [_ Hsh] Hph Hk Hfl. rewrite Hph in Hsh. destruct Hsh as (Hbefore & _ & Hafter).
  unfold in_flight in Hfl. apply andb_True in Hfl as [Hst Hns].
  split.
  - destruct (decide (i s <= k)) as [|Hlt]; [done|exfalso].
    assert (take (i s) (tasks s) !! k = Some t) as Hk'
      by (rewrite lookup_take_lt; [done|lia]).
    eapply Forall_lookup_1 in Hbefore; [|exact Hk']. simpl in Hbefore.
    destruct (is_settled t); simpl in *; done.
  - destruct (decide (k < i s + CONCURRENCY)) as [|Hge]; [done|exfalso].
    assert (drop (i s + CONCURRENCY) (tasks s) !! (k - (i s + CONCURRENCY)) = Some t) as Hk'.
    { rewrite lookup_drop. rewrite <- Hk. f_equal. lia. }
    rewrite Hafter in Hk'. rewrite list_lookup_fmap in Hk'.
    destruct (drop _ (assetQueue s) !! _); simpl in Hk'; [|done].
    injection Hk' as <-. done.
Qed.

Lemma shape_with_task s k t ct :
  shape s -> phase s = Downloading -> tasks s !! k = Some t -> in_flight t ->
  is_started (snd ct) -> shape (with_task k ct s).
Proof.
  intros Hsh Hph Hk Hfl Hst.
  pose proof (in_flight_in_chunk s k t Hsh Hph Hk Hfl) as [Hlo Hhi].
  destruct Hsh as [Hlen Hsh]. rewrite Hph in Hsh. destruct Hsh as (Hbefore & Hchunk & Hafter).
  split; simpl; [by rewrite length_insert|].
  rewrite Hph. repeat split.
  - rewrite take_insert_ge; [done|lia].
  - unfold slice in *. rewrite drop_insert_ge; [|lia].
    destruct (decide (k - i s < i s + CONCURRENCY - i s)).
    + rewrite take_insert_lt; [|lia]. by apply Forall_insert.
    + rewrite take_insert_ge; [done|lia].
  - rewrite drop_insert_lt; [done|lia].
Qed.

Lemma slice_length {A} (k : nat) (l : list A) :
  length (slice k (k + CONCURRENCY) l) = Nat.min CONCURRENCY (length l - k).
Proof. unfold slice. rewrite length_take, length_drop. lia. Qed.

Lemma tasks_start_chunk s k :
  exists c started,
    start_all P (slice k (k + CONCURRENCY) (assetQueue s)) (crawler s) = (c, started)
    /\ crawler (start_chunk P k s) = c
    /\ tasks (start_chunk P k s)
       = (take k (tasks s) ++ started ++ drop (k + CONCURRENCY) (tasks s))%list
    /\ phase (start_chunk P k s) = Downloading
    /\ i (start_chunk P k s) = k
    /\ assetQueue (start_chunk P k s) = assetQueue s
    /\ doc (start_chunk P k s) = doc s.
Proof.
  unfold start_chunk. destruct (start_all P _ (crawler s)) as [c started] eqn:E.
  exists c, started. simpl. auto 10.
Qed.

(** Replacing the chunk at [k] in the task list. *)
Lemma chunk_replaced {A} (T started : list A) (k n : nat) :
  k <= length T -> length started = Nat.min n (length T - k) ->
  let T' := (take k T ++ started ++ drop (k + n) T)%list in
  length T' = length T
  /\ take k T' = take k T
  /\ take n (drop k T') = started
  /\ drop (k + n) T' = drop (k + n) T.
Proof.
  intros Hk Hl T'. subst T'.
  assert (length (take k T) = k) as Htk by (rewrite length_take; lia).
  repeat split.
  - rewrite !length_app, length_drop, Htk. lia.
  - by rewrite take_app_length'.
  - rewrite drop_app_length'; [|done].
    destruct (decide (n <= length T - k)).
    + rewrite take_app_length'; [done|lia].
    + rewrite (drop_ge T); [|lia]. rewrite app_nil_r. rewrite take_ge; [done|lia].
  - rewrite <- drop_drop. rewrite drop_app_length'; [|done].
    destruct (decide (n <= length T - k)).
    + rewrite drop_app_length'; [done|lia].
    + rewrite (drop_ge T); [|lia]. rewrite app_nil_r. rewrite drop_ge; [done|lia].
Qed.

Lemma shape_start_chunk s k :
  length (tasks s) = length (assetQueue s) ->
  Forall (fun t => is_settled t) (take k (tasks s)) ->
  drop k (tasks s) = Queued <$> drop k (assetQueue s) ->
  k <= length (tasks s) ->
  shape (start_chunk P k s).
Proof.
  intros Hlen Hbefore Hafter Hk.
  destruct (tasks_start_chunk s k) as (c & started & E & _ & HT & Hph & Hi & HQ & _).
  pose proof (start_all_length _ _ _ _ E) as Hl. rewrite slice_length in Hl.
  pose proof (start_all_started _ _ _ _ E) as Hs.
  rewrite <- Hlen in Hl.
  destruct (chunk_replaced (tasks s) started k CONCURRENCY Hk Hl) as (H1 & H2 & H3 & H4).
  unfold shape. rewrite Hph, Hi, HQ, HT. split; [lia|]. repeat split.
  - by rewrite H2.
  - unfold slice. replace (k + CONCURRENCY - k) with CONCURRENCY by lia. by rewrite H3.
  - rewrite H4. rewrite <- !drop_drop. rewrite Hafter. symmetry. apply fmap_drop.
Qed.

Lemma scan_page_cases html s :
  (phase (scan_page P html s) = Errored /\ tasks (scan_page P html s) = []
   /\ assetQueue (scan_page P html s) = []
   /\ i (scan_page P html s) = 0 /\ doc (scan_page P html s) = parseFromString P html
   /\ exists e,
       crawler (scan_page P html s)
       = log ("Crawl failed: " +:+ e) ERROR
           (updateStats (mkPartial (Some 1) None None None)
              (log "Main HTML downloaded successfully." SUCCESS (crawler s))))
  \/ exists baseUrl,
       let queue := discover P (parseFromString P html) baseUrl in
       scan_page P html s
       = start_chunk P 0
           {| crawler :=
                log ("Found " +:+ Js.of_nat (length queue) +:+ " linked assets. Downloading...")
                  INFO
                  (updateStats (mkPartial None (Some (length queue)) None None)
                     (updateStats (mkPartial (Some 1) None None None)
                        (log "Main HTML downloaded successfully." SUCCESS (crawler s))));
              phase := Downloading; doc := parseFromString P html; assetQueue := queue;
              i := 0; tasks := Queued <$> queue; saved := saved s |}.
Proof.
  unfold scan_page.
  destruct (querySelector_base _) as [b|]; [destruct (newURL P _ _) as [bu|]|].
  - right. by eexists.
  - left. simpl. eauto 10.
  - right. by eexists.
Qed.

Lemma shape_step e s s' : shape s -> step P e s = Some s' -> shape s'.
Proof.
  intros Hsh Hstep. pose proof Hsh as [Hlen Hphase].
  unfold step in Hstep.
  destruct e as [ | | | | |r]; [..|destruct r]; destruct (phase s) eqn:Hph; try done.
  - (* start is called *)
    injection Hstep as <-. split; simpl; done.
  - (* the page request is answered *)
    destruct (fetchWithProxy P net _); injection Hstep as <-; split; simpl; try done.
    rewrite Hphase. constructor.
  - (* a task's request is answered *)
    destruct (tasks s !! k) as [t|] eqn:Hk; simpl in Hstep; [|done].
    destruct (respond P net t (crawler s)) as [[c' t']|] eqn:Hr; simpl in Hstep; [|done].
    injection Hstep as <-. apply respond_in_flight in Hr as [? ?].
    by eapply shape_with_task.
  - (* a task's continuation runs *)
    destruct (tasks s !! k) as [t|] eqn:Hk; simpl in Hstep; [|done].
    destruct (resume P t (crawler s)) as [[c' t']|] eqn:Hr; simpl in Hstep; [|done].
    injection Hstep as <-. apply resume_in_flight in Hr as [? ?].
    by eapply shape_with_task.
  - (* the page is scanned *)
    injection Hstep as <-.
    destruct (scan_page_cases html s) as [(Hp & Ht & Hq & _)|[baseUrl ->]].
    + split; [by rewrite Ht, Hq|]. rewrite Hp, Ht. constructor.
    + apply shape_start_chunk; simpl.
      * by rewrite length_fmap.
      * constructor.
      * done.
      * lia.
  - (* the chunk has settled *)
    destruct Hphase as (Hbefore & Hchunk & Hafter).
    destruct (forallb is_settled _) eqn:Hall; [|done].
    apply Is_true_true_2, forallb_True in Hall.
    assert (Forall (fun t => is_settled t) (take (i s + CONCURRENCY) (tasks s))) as Hdone.
    { rewrite <- take_take_drop. apply Forall_app. split; [done|].
      unfold slice in Hall. by replace (i s + CONCURRENCY - i s) with CONCURRENCY in Hall by lia. }
    destruct (i s + CONCURRENCY <? length (assetQueue s))%nat eqn:Hmore;
      injection Hstep as <-.
    + apply Nat.ltb_lt in Hmore. apply shape_start_chunk; try done. lia.
    + apply Nat.ltb_ge in Hmore. split; simpl; [done|].
      rewrite <- (take_drop (i s + CONCURRENCY) (tasks s)). apply Forall_app. split; [done|].
      rewrite Hafter. rewrite drop_ge; [constructor|lia].
  - (* the archive is generated *)
    injection Hstep as <-; split; simpl; done.
  - (* generating the archive fails *)
    injection Hstep as <-; split; simpl; done.
Qed.

Lemma shape_new c : shape (new_session c).
Proof. split; simpl; done. Qed.

Lemma reachable_shape s : reachable P s -> shape s.
Proof. apply reachable_invariant; [intros; apply shape_new|apply shape_step]. Qed.

(** *** Counting tasks *)

Lemma count_cons {A} (f : A -> bool) (a : A) (l : list A) :
  length (filter (fun a => f a) (a :: l))
  = (if f a then 1 else 0) + length (filter (fun a => f a) l).
Proof.
  rewrite filter_cons. destruct (decide (f a)) as [H|H]; destruct (f a); simpl in *; tauto.
Qed.

Lemma count_insert {A} (f : A -> bool) (l : list A) : forall k x y,
  l !! k = Some x ->
  length (filter (fun a => f a) (<[k:=y]> l)) + (if f x then 1 else 0)
  = length (filter (fun a => f a) l) + (if f y then 1 else 0).
Proof.
  induction l as [|a l IH]; intros k x y Hk; [done|].
  destruct k as [|k]; simpl in *.
  - injection Hk as ->. rewrite !count_cons. lia.
  - rewrite !count_cons. specialize (IH k x y Hk). lia.
Qed.

Lemma count_le_length {A} (f : A -> bool) (l : list A) :
  length (filter (fun a => f a) l) <= length l.
Proof. apply length_filter. Qed.

Lemma count_none {A} (f : A -> bool) (l : list A) :
  Forall (fun a => f a = false) l -> length (filter (fun a => f a) l) = 0.
Proof.
  induction 1 as [|a l Ha _ IH]; [done|].
  rewrite count_cons, Ha, IH. done.
Qed.

(** Replacing a chunk of queued entries by started ones changes a count by
    what the started ones contribute. *)
Lemma count_chunk_replaced (f : Task -> bool) (T started : list Task)
    (Q : list QueueItem) (k n : nat) :
  (forall it, f (Queued it) = false) ->
  drop k T = Queued <$> Q ->
  length (filter (fun t => f t) (take k T ++ started ++ drop (k + n) T))
  = length (filter (fun t => f t) T) + length (filter (fun t => f t) started).
Proof.
  intros Hq Hdrop.
  assert (forall m, length (filter (fun t => f t) (drop m (drop k T))) = 0) as Hz.
  { intros m. apply count_none. rewrite Hdrop. rewrite <- fmap_drop.
    apply Forall_fmap, Forall_forall. intros it _. apply Hq. }
  assert (length (filter (fun t => f t) T)
          = length (filter (fun t => f t) (take k T))
            + length (filter (fun t => f t) (drop k T))) as ->
    by (by rewrite <- length_app, <- filter_app, take_drop).
  rewrite !filter_app, !length_app. rewrite <- drop_drop.
  rewrite (Hz n). pose proof (Hz 0) as Hz0. rewrite drop_0 in Hz0. lia.
Qed.

(** *** What a stretch of code leaves unchanged *)

Lemma same_books_refl c : same_books c c.
Proof. by repeat split. Qed.

Lemma same_books_trans c1 c2 c3 : same_books c1 c2 -> same_books c2 c3 -> same_books c1 c3.
Proof. unfold same_books. intros (?&?&?&?&?) (?&?&?&?&?). repeat split; congruence. Qed.

Lemma downloadAsset_start_books it c c' t :
  downloadAsset_start P it c = (c', t) -> same_books c c'.
Proof.
  unfold downloadAsset_start. case_decide; intros [= <- <-]; by repeat split.
Qed.

Lemma start_all_books chunk : forall c c' ts,
  start_all P chunk c = (c', ts) -> same_books c c'.
Proof.
  induction chunk as [|it chunk IH]; intros c c' ts; simpl.
  - intros [= <- <-]. apply same_books_refl.
  - destruct (downloadAsset_start P it c) as [c1 t] eqn:E1.
    destruct (start_all P chunk c1) as [c2 ts'] eqn:E.
    intros [= <- <-]. eapply same_books_trans; [eapply downloadAsset_start_books|]; eauto.
Qed.

Lemma css_loop_books u f z todo : forall processed c c' t,
  css_loop P u f z todo processed c = (c', t) -> same_books c c'.
Proof.
  induction todo as [|a rest IH]; intros processed c c' t; simpl.
  - intros [= <- <-]. apply same_books_refl.
  - case_decide; [by eauto|]. intros [= <- <-]. by repeat split.
Qed.

Lemma start_all_no_outcome o chunk : forall c c' ts,
  o <> Skipped -> start_all P chunk c = (c', ts) -> count_outcome o ts = 0.
Proof.
  intros c c' ts Ho E. apply count_none.
  revert c c' ts E. induction chunk as [|it chunk IH]; intros c c' ts; simpl.
  - by intros [= <- <-].
  - destruct (downloadAsset_start P it c) as [c1 t] eqn:E1.
    destruct (start_all P chunk c1) as [c2 ts'] eqn:E.
    intros [= <- <-]. constructor; [|eauto].
    apply downloadAsset_start_started in E1 as [[? ?]| ->].
    + destruct t; simpl in *; try done; tauto.
    + by destruct o.
Qed.

(** *** The counters *)

Lemma respond_stats net t c c' t' :
  respond P net t c = Some (c', t') ->
  assetsFound (stats c') = assetsFound (stats c)
  /\ assetsDownloaded (stats c') = assetsDownloaded (stats c)
  /\ pagesScanned (stats c') = pagesScanned (stats c)
  /\ has_outcome Succeeded t = false /\ has_outcome Succeeded t' = false
  /\ (onStatsUpdate c' = onStatsUpdate c \/ onStatsUpdate c' = onStatsUpdate c ++ [stats c'])
  /\ assets c' = assets c.
Proof.
  destruct t; simpl; try done.
  - destruct (fetchWithProxy P net u); intros [= <- <-]; simpl.
    + repeat split; auto. by destruct t.
    + repeat split; auto.
  - destruct (fetchWithProxy P net _); [intros [= <- <-]; simpl; repeat split; auto|].
    unfold css_next. destruct (css_loop _ _ _ _ _ _ _) as [c1 t1] eqn:E. intros [= <- <-].
    pose proof (css_loop_started _ _ _ _ _ _ _ _ E) as [? ?].
    apply css_loop_books in E as (Hs & Hu & Ha & _). simpl in *.
    rewrite Hs, Hu, Ha. repeat split; auto. destruct t1; simpl in *; try done; tauto.
Qed.

Lemma resume_stats t c c' t' :
  resume P t c = Some (c', t') ->
  assetsFound (stats c') = assetsFound (stats c)
  /\ assetsDownloaded (stats c')
     = assetsDownloaded (stats c) + (if has_outcome Succeeded t' then 1 else 0)
  /\ pagesScanned (stats c') = pagesScanned (stats c)
  /\ totalSize (stats c') = totalSize (stats c)
  /\ has_outcome Succeeded t = false
  /\ (onStatsUpdate c' = onStatsUpdate c \/ onStatsUpdate c' = onStatsUpdate c ++ [stats c']).
Proof.
  destruct t; simpl; try done.
  - destruct (css_loop _ _ _ _ _ _ _) as [c1 t1] eqn:E. intros [= <- <-].
    pose proof (css_loop_started _ _ _ _ _ _ _ _ E) as [? ?].
    apply css_loop_books in E as (Hs & Hu & _). rewrite Hs, Hu.
    destruct t1; simpl in *; try tauto; repeat split; auto.
  - unfold css_next. destruct (css_loop _ _ _ _ _ _ _) as [c1 t1] eqn:E. intros [= <- <-].
    pose proof (css_loop_started _ _ _ _ _ _ _ _ E) as [? ?].
    apply css_loop_books in E as (Hs & Hu & _). simpl in *. rewrite Hs, Hu.
    destruct t1; simpl in *; try tauto; repeat split; auto.
  - intros [= <- <-]. simpl. repeat split; auto.
Qed.

Lemma counted_bound s :
  counted s -> assetsDownloaded (stats (crawler s)) <= assetsFound (stats (crawler s)).
Proof. intros (-> & -> & _). apply count_le_length. Qed.

Lemma counted_with_task s k t c' t' :
  counted s -> tasks s !! k = Some t ->
  assetsFound (stats c') = assetsFound (stats (crawler s)) ->
  assetsDownloaded (stats c')
  = assetsDownloaded (stats (crawler s)) + (if has_outcome Succeeded t' then 1 else 0) ->
  has_outcome Succeeded t = false ->
  (onStatsUpdate c' = onStatsUpdate (crawler s)
   \/ onStatsUpdate c' = onStatsUpdate (crawler s) ++ [stats c']) ->
  counted (with_task k (c', t') s).
Proof.
  intros (Hf & Hd & Hall) Hk Hf' Hd' Ht Hu.
  pose proof (count_insert (has_outcome Succeeded) (tasks s) k t t' Hk) as Hc.
  rewrite Ht in Hc.
  assert (assetsFound (stats c') = length (<[k:=t']> (tasks s))) as H1
    by (rewrite length_insert; congruence).
  assert (assetsDownloaded (stats c') = count_outcome Succeeded (<[k:=t']> (tasks s))) as H2
    by (unfold count_outcome in *; lia).
  repeat split; simpl; try done.
  destruct Hu as [->| ->]; [done|].
  apply Forall_app. split; [done|]. constructor; [|constructor].
  rewrite H1, H2. apply count_le_length.
Qed.

Lemma counted_start_chunk s k :
  counted s ->
  length (tasks s) = length (assetQueue s) ->
  drop k (tasks s) = Queued <$> drop k (assetQueue s) ->
  k <= length (tasks s) ->
  counted (start_chunk P k s).
Proof.
  intros (Hf & Hd & Hall) Hlen Hafter Hk.
  destruct (tasks_start_chunk s k) as (c & started & E & Hc & HT & _).
  pose proof (start_all_length _ _ _ _ E) as Hl. rewrite slice_length, <- Hlen in Hl.
  destruct (chunk_replaced (tasks s) started k CONCURRENCY Hk Hl) as (H1 & _).
  pose proof (start_all_books _ _ _ _ E) as (Hs & Hu & _).
  unfold counted. rewrite Hc, HT, Hs, Hu. repeat split; try done.
  - lia.
  - unfold count_outcome. erewrite count_chunk_replaced; [|done|exact Hafter].
    fold (count_outcome Succeeded started).
    rewrite (start_all_no_outcome Succeeded _ _ _ _ ltac:(done) E).
    unfold count_outcome in Hd. lia.
Qed.

Lemma counted_step e s s' : shape s -> counted s -> step P e s = Some s' -> counted s'.
Proof.
  intros Hsh Hc Hstep. pose proof Hsh as [Hlen Hphase].
  pose proof (counted_bound s Hc) as Hle. pose proof Hc as (Hf & Hd & Hall).
  unfold step in Hstep.
  destruct e as [ | | | | |r]; [..|destruct r]; destruct (phase s) eqn:Hph; try done.
  - injection Hstep as <-. done.
  - destruct (fetchWithProxy P net _); injection Hstep as <-; [|done].
    repeat split; simpl; try done. apply Forall_app. split; [done|].
    constructor; [|constructor]. simpl. lia.
  - destruct (tasks s !! k) as [t|] eqn:Hk; simpl in Hstep; [|done].
    destruct (respond P net t (crawler s)) as [[c' t']|] eqn:Hr; simpl in Hstep; [|done].
    injection Hstep as <-. apply respond_stats in Hr as (H1 & H2 & _ & H3 & H4 & H5 & _).
    eapply counted_with_task; eauto. rewrite H4. lia.
  - destruct (tasks s !! k) as [t|] eqn:Hk; simpl in Hstep; [|done].
    destruct (resume P t (crawler s)) as [[c' t']|] eqn:Hr; simpl in Hstep; [|done].
    injection Hstep as <-. apply resume_stats in Hr as (H1 & H2 & _ & _ & H3 & H4).
    eapply counted_with_task; eauto.
  - injection Hstep as <-. rewrite Hphase in *. unfold count_outcome in Hd. simpl in *.
    destruct (scan_page_cases html s) as [(Hp & Ht & Hq & _ & _ & e & Hcr)|[baseUrl ->]].
    + unfold counted. rewrite Ht, Hcr. simpl. repeat split; try done.
      apply Forall_app. split; [done|]. constructor; [|constructor]. simpl. lia.
    + apply counted_start_chunk; simpl; try done; [|by rewrite length_fmap|lia].
      repeat split; simpl.
      * by rewrite length_fmap.
      * rewrite Hd. symmetry. apply count_none. apply Forall_fmap, Forall_forall. done.
      * rewrite <- app_assoc. apply Forall_app. split; [done|].
        constructor; [simpl; lia|]. constructor; [simpl; lia|constructor].
  - destruct Hphase as (Hbefore & Hchunk & Hafter).
    destruct (forallb is_settled _) eqn:Hall'; [|done].
    destruct (i s + CONCURRENCY <? length (assetQueue s))%nat eqn:Hmore;
      injection Hstep as <-.
    + apply Nat.ltb_lt in Hmore. apply counted_start_chunk; try done. lia.
    + done.
  - injection Hstep as <-. done.
  - injection Hstep as <-. done.
Qed.

Lemma counted_new c' u : new_Crawler P u = Ok c' -> counted (new_session c').
Proof.
  unfold new_Crawler. destruct (newURL P u None); [|done]. intros [= <-].
  repeat split; simpl; done.
Qed.

Lemma reachable_counted s : reachable P s -> counted s.
Proof.
  intros Hr.
  cut (shape s /\ counted s); [tauto|]. revert s Hr.
  apply reachable_invariant.
  - intros u c Hc. split; [apply shape_new|by eapply counted_new].
  - intros e s s' [Hsh Hc] Hstep. split; [by eapply shape_step|by eapply counted_step].
Qed.

(** C1. In every state a session can reach, every snapshot of [CrawlStats]
    that was passed to [onStatsUpdate] and the current counters satisfy
    [assetsDownloaded <= assetsFound], whatever the network answered and in
    whatever order the tasks of a chunk (stylesheets with their sub-assets
    included) were served. *)
Theorem downloaded_le_found_always s :
  reachable P s ->
  Forall (fun st => assetsDownloaded st <= assetsFound st) (onStatsUpdate (crawler s))
  /\ assetsDownloaded (stats (crawler s)) <= assetsFound (stats (crawler s)).
Proof.
  intros Hr. pose proof (reachable_counted s Hr) as Hc.
  split; [apply Hc|by apply counted_bound].
Qed.

Lemma session_after_reachable u es s : session_after P u es = Some s -> reachable P s.
Proof.
  unfold session_after. destruct (new_Crawler P u) as [c|] eqn:E; [|done].
  intros Hrun. by exists u, c, es.
Qed.

Lemma i_start_chunk s k : i (start_chunk P k s) = k.
Proof. unfold start_chunk. by destruct (start_all P _ _). Qed.

Lemma phase_start_chunk s k : phase (start_chunk P k s) = Downloading.
Proof. unfold start_chunk. by destruct (start_all P _ _). Qed.

Lemma assetQueue_start_chunk s k : assetQueue (start_chunk P k s) = assetQueue s.
Proof. unfold start_chunk. by destruct (start_all P _ _). Qed.

Lemma doc_start_chunk s k : doc (start_chunk P k s) = doc s.
Proof. unfold start_chunk. by destruct (start_all P _ _). Qed.

(** *** Chunks *)

Lemma i_step e s s' :
  (exists m, i s = m * CONCURRENCY) -> step P e s = Some s' -> exists m, i s' = m * CONCURRENCY.
Proof.
  intros [m Hm] Hstep. unfold step in Hstep.
  destruct e as [ | | | | |r]; [..|destruct r]; destruct (phase s) eqn:Hph; try done.
  - injection Hstep as <-. by exists m.
  - destruct (fetchWithProxy P net _); injection Hstep as <-; by exists m.
  - destruct (tasks s !! k) as [t|]; simpl in Hstep; [|done].
    destruct (respond P net t (crawler s)); simpl in Hstep; [|done].
    injection Hstep as <-. by exists m.
  - destruct (tasks s !! k) as [t|]; simpl in Hstep; [|done].
    destruct (resume P t (crawler s)); simpl in Hstep; [|done].
    injection Hstep as <-. by exists m.
  - injection Hstep as <-.
    destruct (scan_page_cases html s) as [(_ & _ & _ & -> & _)|[baseUrl ->]]; [by exists 0|].
    rewrite i_start_chunk. by exists 0.
  - destruct (forallb is_settled _); [|done].
    destruct (i s + CONCURRENCY <? length (assetQueue s))%nat; injection Hstep as <-.
    + rewrite i_start_chunk. exists (S m). lia.
    + by exists m.
  - injection Hstep as <-. by exists m.
  - injection Hstep as <-. by exists m.
Qed.

Lemma reachable_i s : reachable P s -> exists m, i s = m * CONCURRENCY.
Proof.
  apply (reachable_invariant (fun s => exists m, i s = m * CONCURRENCY)).
  - intros. by exists 0.
  - intros. by eapply i_step.
Qed.

Lemma settled_not_in_flight t : is_settled t -> in_flight t = false.
Proof. by destruct t. Qed.

Lemma queued_not_in_flight it : in_flight (Queued it) = false.
Proof. done. Qed.

(** C8. The queue is served in chunks of [CONCURRENCY = 5] entries: entry
    [a] belongs to chunk [a / 5].  In every reachable state, as soon as a
    task of some chunk has been started, all tasks of every earlier chunk
    are settled (a stylesheet task settles only after its sub-download loop
    has ended); the started and unsettled tasks all lie in the current chunk
    [slice i (i + 5)], so at most 5 are suspended at any time. *)
Theorem chunks_run_in_order s :
  reachable P s ->
  CONCURRENCY = 5
  /\ (forall a b ta tb,
        a / CONCURRENCY < b / CONCURRENCY ->
        tasks s !! a = Some ta -> tasks s !! b = Some tb ->
        is_started tb -> is_settled ta)
  /\ (forall k t, tasks s !! k = Some t -> in_flight t ->
        phase s = Downloading /\ i s <= k < i s + CONCURRENCY)
  /\ length (slice (i s) (i s + CONCURRENCY) (tasks s)) <= CONCURRENCY
  /\ length (filter (fun t => in_flight t) (tasks s)) <= CONCURRENCY.
Proof.
  intros Hr. pose proof (reachable_shape s Hr) as Hsh.
  destruct (reachable_i s Hr) as [m Hm]. pose proof Hsh as [Hlen Hphase].
  assert (forall k t, tasks s !! k = Some t -> in_flight t -> phase s = Downloading) as Hdl.
  { intros k t Hk Hfl. unfold in_flight in Hfl. apply andb_True in Hfl as [Hst Hns].
    destruct (phase s); try done.
    1-3: by rewrite Hphase in Hk.
    all: eapply Forall_lookup_1 in Hphase; [|exact Hk]; simpl in Hphase;
      destruct (is_settled t); done. }
  split; [done|]. split; [|split; [|split]].
  - intros a b ta tb Hab Ha Hb Hst.
    destruct (phase s) eqn:Hph.
    1-3: by rewrite Hphase in Ha.
    2-4: by eapply Forall_lookup_1 in Hphase; [|exact Ha].
    destruct Hphase as (Hbefore & _ & Hafter).
    assert (b < i s + CONCURRENCY) as Hb'.
    { destruct (decide (b < i s + CONCURRENCY)) as [|Hge]; [done|exfalso].
      assert (drop (i s + CONCURRENCY) (tasks s) !! (b - (i s + CONCURRENCY)) = Some tb) as Hk'.
      { rewrite lookup_drop. rewrite <- Hb. f_equal. lia. }
      rewrite Hafter, list_lookup_fmap in Hk'.
      destruct (drop _ (assetQueue s) !! _); simpl in Hk'; [|done].
      injection Hk' as <-. done. }
    assert (a < i s) as Ha'.
    { rewrite Hm in *. unfold CONCURRENCY in *.
      assert (b / 5 < S m) by (apply Nat.Div0.div_lt_upper_bound; lia).
      destruct (decide (a < m * 5)) as [|Hge]; [done|exfalso].
      assert (m <= a / 5) by (apply Nat.div_le_lower_bound; lia). lia. }
    eapply Forall_lookup_1 in Hbefore; [exact Hbefore|].
    rewrite lookup_take_lt; done.
  - intros k t Hk Hfl. pose proof (Hdl k t Hk Hfl) as Hph. split; [done|].
    by eapply in_flight_in_chunk.
  - rewrite slice_length. lia.
  - destruct (phase s) eqn:Hph.
    1-3: rewrite Hphase; simpl; unfold CONCURRENCY; lia.
    2-4: rewrite count_none; [lia|];
         eapply Forall_impl; [exact Hphase|]; intros t Ht; by apply settled_not_in_flight.
    destruct Hphase as (Hbefore & _ & Hafter).
    rewrite <- (take_drop (i s) (tasks s)).
    rewrite <- (take_drop CONCURRENCY (drop (i s) (tasks s))).
    rewrite !filter_app, !length_app.
    rewrite (count_none in_flight (take (i s) (tasks s))).
    2: { eapply Forall_impl; [exact Hbefore|]. intros t Ht. by apply settled_not_in_flight. }
    rewrite drop_drop, Hafter.
    rewrite (count_none in_flight (Queued <$> _)).
    2: { apply Forall_fmap, Forall_forall. done. }
    pose proof (count_le_length in_flight (take CONCURRENCY (drop (i s) (tasks s)))) as Hc.
    rewrite length_take in Hc. lia.
Qed.

(** *** Claims on URLs *)

Lemma claims_ok_frame c c' :
  fetched c' = fetched c -> url c' = url c -> visitedUrls c ⊆ visitedUrls c' ->
  claims_ok c -> claims_ok c'.
Proof.
  unfold claims_ok, asset_requests. intros -> -> Hsub (H1 & H2 & H3).
  repeat split; try done. intros u Hu. apply Hsub. by apply H3.
Qed.

Lemma claims_ok_claim u c :
  u ∉ visitedUrls c -> claims_ok c -> claims_ok (request u (visit u c)).
Proof.
  unfold claims_ok, asset_requests. simpl. intros Hu (H1 & H2 & H3).
  rewrite H1 in *. simpl in *. repeat split.
  - apply NoDup_app. repeat split; [done| |apply NoDup_singleton].
    intros x Hx ->%list_elem_of_singleton. apply Hu. by apply H3.
  - intros x [Hx| ->%list_elem_of_singleton]%elem_of_app; set_solver.
Qed.

Lemma downloadAsset_start_claims it c c' t :
  downloadAsset_start P it c = (c', t) -> claims_ok c -> claims_ok c'.
Proof.
  unfold downloadAsset_start. case_decide as Hv; intros [= <- <-] Hc; [done|].
  pose proof (claims_ok_claim _ _ Hv Hc) as Hc'.
  revert Hc'. apply claims_ok_frame; simpl; set_solver.
Qed.

Lemma start_all_claims chunk : forall c c' ts,
  start_all P chunk c = (c', ts) -> claims_ok c -> claims_ok c'.
Proof.
  induction chunk as [|it chunk IH]; intros c c' ts; simpl.
  - by intros [= <- <-].
  - destruct (downloadAsset_start P it c) as [c1 t] eqn:E1.
    destruct (start_all P chunk c1) as [c2 ts'] eqn:E.
    intros [= <- <-] Hc. eapply IH; [exact E|]. by eapply downloadAsset_start_claims.
Qed.

Lemma css_loop_claims u f z todo : forall processed c c' t,
  css_loop P u f z todo processed c = (c', t) -> claims_ok c -> claims_ok c'.
Proof.
  induction todo as [|a rest IH]; intros processed c c' t; simpl.
  - by intros [= <- <-].
  - case_decide as Hv; [by eauto|]. intros [= <- <-] Hc. by apply claims_ok_claim.
Qed.

Lemma respond_claims net t c c' t' :
  respond P net t c = Some (c', t') -> claims_ok c -> claims_ok c'.
Proof.
  destruct t; simpl; try done.
  - destruct (fetchWithProxy P net u); intros [= <- <-]; by apply claims_ok_frame.
  - destruct (fetchWithProxy P net _); [intros [= <- <-]; by apply claims_ok_frame|].
    unfold css_next. destruct (css_loop _ _ _ _ _ _ _) as [c1 t1] eqn:E. intros [= <- <-] Hc.
    eapply css_loop_claims; [exact E|]. revert Hc. by apply claims_ok_frame.
Qed.

Lemma resume_claims t c c' t' :
  resume P t c = Some (c', t') -> claims_ok c -> claims_ok c'.
Proof.
  destruct t; simpl; try done.
  - destruct (css_loop _ _ _ _ _ _ _) as [c1 t1] eqn:E. intros [= <- <-].
    by eapply css_loop_claims.
  - unfold css_next. destruct (css_loop _ _ _ _ _ _ _) as [c1 t1] eqn:E. intros [= <- <-] Hc.
    eapply css_loop_claims; [exact E|]. revert Hc. by apply claims_ok_frame.
  - intros [= <- <-]. by apply claims_ok_frame.
Qed.

Lemma claims_start_chunk s k :
  claims_ok (crawler s) -> claims_ok (crawler (start_chunk P k s)).
Proof.
  destruct (tasks_start_chunk s k) as (c & started & E & -> & _).
  by eapply start_all_claims.
Qed.

Lemma claimed_step e s s' : claimed s -> step P e s = Some s' -> claimed s'.
Proof.
  unfold claimed. intros Hc Hstep. unfold step in Hstep.
  destruct e as [ | | | | |r]; [..|destruct r]; destruct (phase s) eqn:Hph; try done.
  - injection Hstep as <-. simpl. unfold claims_ok, asset_requests. simpl.
    rewrite Hc. simpl. repeat split; [constructor|]. by intros u ?%elem_of_nil.
  - destruct (fetchWithProxy P net _); injection Hstep as <-; simpl;
      revert Hc; by apply claims_ok_frame.
  - destruct (tasks s !! k) as [t|]; simpl in Hstep; [|done].
    destruct (respond P net t (crawler s)) as [[c' t']|] eqn:Hr; simpl in Hstep; [|done].
    injection Hstep as <-. simpl. rewrite Hph. by eapply respond_claims.
  - destruct (tasks s !! k) as [t|]; simpl in Hstep; [|done].
    destruct (resume P t (crawler s)) as [[c' t']|] eqn:Hr; simpl in Hstep; [|done].
    injection Hstep as <-. simpl. rewrite Hph. by eapply resume_claims.
  - injection Hstep as <-.
    destruct (scan_page_cases html s) as [(-> & _ & _ & _ & _ & e & ->)|[baseUrl ->]].
    + revert Hc. by apply claims_ok_frame.
    + rewrite phase_start_chunk. apply claims_start_chunk. simpl.
      revert Hc. by apply claims_ok_frame.
  - destruct (forallb is_settled _); [|done].
    destruct (i s + CONCURRENCY <? length (assetQueue s))%nat; injection Hstep as <-.
    + rewrite phase_start_chunk. by apply claims_start_chunk.
    + simpl. revert Hc. by apply claims_ok_frame.
  - injection Hstep as <-. simpl. revert Hc. by apply claims_ok_frame.
  - injection Hstep as <-. simpl. revert Hc. by apply claims_ok_frame.
Qed.

Lemma claimed_new c u : new_Crawler P u = Ok c -> claimed (new_session c).
Proof.
  unfold new_Crawler. destruct (newURL P u None); [|done]. by intros [= <-].
Qed.

Lemma reachable_claimed s : reachable P s -> claimed s.
Proof.
  apply reachable_invariant; [intros; by eapply claimed_new|apply claimed_step].
Qed.

(** C2, as amended.  The downloader ([downloadAsset] and the sub-download
    loop of [processCssAssets]) requests every URL at most once in a
    session, whether the URL comes from the page, from a stylesheet or from
    both: the requests of a session are the page request followed by
    pairwise different asset requests, each for a URL in the visited set.
    The visited check and insert happen in one synchronous stretch: a call
    of [downloadAsset] for a visited URL ends at once and changes nothing,
    any other call leaves its URL visited. *)
Theorem downloader_fetches_once s :
  reachable P s ->
  (fetched (crawler s) = [] \/
   fetched (crawler s) = href (url (crawler s)) :: asset_requests (crawler s))
  /\ NoDup (asset_requests (crawler s))
  /\ (forall u, u ∈ asset_requests (crawler s) -> u ∈ visitedUrls (crawler s))
  /\ (forall it c, item_url it ∈ visitedUrls c ->
        downloadAsset_start P it c = (c, Settled Skipped))
  /\ (forall it c c' t, downloadAsset_start P it c = (c', t) ->
        item_url it ∈ visitedUrls c').
Proof.
  intros Hr. pose proof (reachable_claimed s Hr) as Hc. unfold claimed in Hc.
  assert (fetched (crawler s) = [] \/ claims_ok (crawler s)) as [He|(H1 & H2 & H3)]
    by (destruct (phase s); auto).
  - unfold asset_requests. rewrite He. simpl. repeat split; auto; try constructor.
    + by intros u ?%elem_of_nil.
    + intros it c Hv. unfold downloadAsset_start. by case_decide.
    + intros it c c' t. unfold downloadAsset_start.
      case_decide; intros [= <- <-]; simpl; set_solver.
  - repeat split; auto.
    + intros it c Hv. unfold downloadAsset_start. by case_decide.
    + intros it c c' t. unfold downloadAsset_start.
      case_decide; intros [= <- <-]; simpl; set_solver.
Qed.

(** *** Names in the registry *)

Lemma css_loop_named u f z todo : forall processed c c' t,
  named P u css f z -> css_loop P u f z todo processed c = (c', t) -> task_named P t.
Proof.
  induction todo as [|a rest IH]; intros processed c c' t Hn; simpl.
  - by intros [= <- <-].
  - case_decide; [by eauto|]. by intros [= <- <-].
Qed.

Lemma respond_named net t c c' t' :
  task_named P t -> respond P net t c = Some (c', t') -> task_named P t'.
Proof.
  destruct t; simpl; try done; intros Hn.
  - destruct (fetchWithProxy P net u); intros [= <- <-]; [|done]. by destruct t.
  - destruct (fetchWithProxy P net _); [by intros [= <- <-]|].
    unfold css_next. destruct (css_loop _ _ _ _ _ _ _) as [c1 t1] eqn:E. intros [= <- <-].
    by eapply css_loop_named.
Qed.

Lemma resume_named t c c' t' :
  task_named P t -> resume P t c = Some (c', t') ->
  task_named P t'
  /\ (forall u a, assets c' !! u = Some a -> asset_named P u a \/ assets c !! u = Some a).
Proof.
  destruct t; simpl; try done; intros Hn.
  - destruct (css_loop _ _ _ _ _ _ _) as [c1 t1] eqn:E. intros [= <- <-].
    split; [by eapply css_loop_named|].
    apply css_loop_books in E as (_ & _ & -> & _). auto.
  - unfold css_next. destruct (css_loop _ _ _ _ _ _ _) as [c1 t1] eqn:E. intros [= <- <-].
    split; [by eapply css_loop_named|].
    apply css_loop_books in E as (_ & _ & -> & _). auto.
  - intros [= <- <-]. split; [done|]. simpl. intros u' a.
    destruct (decide (u = u')) as [<-|Hne].
    + rewrite lookup_insert_eq. intros [= <-]. left. by split.
    + rewrite lookup_insert_ne; auto.
Qed.

Lemma start_all_named chunk : forall c c' ts,
  start_all P chunk c = (c', ts) -> Forall (task_named P) ts.
Proof.
  induction chunk as [|it chunk IH]; intros c c' ts; simpl.
  - by intros [= <- <-].
  - destruct (downloadAsset_start P it c) as [c1 t] eqn:E1.
    destruct (start_all P chunk c1) as [c2 ts'] eqn:E.
    intros [= <- <-]. constructor; [|eauto].
    unfold downloadAsset_start in E1. case_decide; injection E1 as <- <-; by simpl.
Qed.

Lemma registered_start_chunk s k :
  registered P s -> registered P (start_chunk P k s).
Proof.
  intros [Ha Ht].
  destruct (tasks_start_chunk s k) as (c & started & E & Hc & HT & _).
  unfold registered. rewrite Hc, HT. split.
  - apply start_all_books in E as (_ & _ & -> & _). done.
  - apply Forall_app. split; [by apply Forall_take|].
    apply Forall_app. split; [by eapply start_all_named|by apply Forall_drop].
Qed.

Lemma registered_step e s s' : registered P s -> step P e s = Some s' -> registered P s'.
Proof.
  intros Hreg Hstep. pose proof Hreg as [Ha Ht]. unfold step in Hstep.
  destruct e as [ | | | | |r]; [..|destruct r]; destruct (phase s) eqn:Hph; try done.
  - injection Hstep as <-. done.
  - destruct (fetchWithProxy P net _); injection Hstep as <-; done.
  - destruct (tasks s !! k) as [t|] eqn:Hk; simpl in Hstep; [|done].
    destruct (respond P net t (crawler s)) as [[c' t']|] eqn:Hr; simpl in Hstep; [|done].
    injection Hstep as <-. pose proof (Forall_lookup_1 _ _ _ _ Ht Hk) as Hn.
    split; simpl.
    + apply respond_stats in Hr as (_&_&_&_&_&_& ->). done.
    + apply Forall_insert; [done|]. by eapply respond_named.
  - destruct (tasks s !! k) as [t|] eqn:Hk; simpl in Hstep; [|done].
    destruct (resume P t (crawler s)) as [[c' t']|] eqn:Hr; simpl in Hstep; [|done].
    injection Hstep as <-. pose proof (Forall_lookup_1 _ _ _ _ Ht Hk) as Hn.
    destruct (resume_named _ _ _ _ Hn Hr) as [Hn' Ha'].
    split; simpl.
    + intros u a Hu. destruct (Ha' u a Hu); auto.
    + by apply Forall_insert.
  - injection Hstep as <-.
    destruct (scan_page_cases html s) as [(_ & Ht' & _ & _ & _ & e & Hc)|[baseUrl ->]].
    + unfold registered. rewrite Ht', Hc. simpl. split; [done|constructor].
    + apply registered_start_chunk. split; simpl; [done|].
      apply Forall_fmap, Forall_forall. done.
  - destruct (forallb is_settled _); [|done].
    destruct (i s + CONCURRENCY <? length (assetQueue s))%nat; injection Hstep as <-.
    + by apply registered_start_chunk.
    + done.
  - injection Hstep as <-. done.
  - injection Hstep as <-. done.
Qed.

Lemma registered_new c u : new_Crawler P u = Ok c -> registered P (new_session c).
Proof.
  unfold new_Crawler. destruct (newURL P u None); [|done]. intros [= <-].
  split; simpl; [|constructor]. intros u' a. by rewrite lookup_empty.
Qed.

Lemma reachable_registered s : reachable P s -> registered P s.
Proof.
  apply reachable_invariant; [intros; by eapply registered_new|apply registered_step].
Qed.

(** An archive path determines its folder and its file name. *)
Lemma zipPath_inj t1 t2 f1 f2 :
  getFolderForType t1 +:+ "/" +:+ f1 = getFolderForType t2 +:+ "/" +:+ f2 ->
  getFolderForType t1 = getFolderForType t2 /\ f1 = f2.
Proof.
  destruct t1, t2; simpl; intros H; try discriminate; by simplify_eq.
Qed.

(** C5, as amended.  The assets of the registry are keyed by their
    original URLs, so two different entries have different URLs; the path
    of an entry is [folder/filename] with the folder of its type and the
    file name derived from its URL.  Two entries have the same archive path
    exactly when they have the same folder and the same file name: paths
    are unique among assets that differ in folder or file name, and only
    among those. *)
Theorem archive_paths_by_folder_and_name s u1 u2 a1 a2 :
  reachable P s ->
  assets (crawler s) !! u1 = Some a1 ->
  assets (crawler s) !! u2 = Some a2 ->
  u1 <> u2 ->
  originalUrl a1 <> originalUrl a2
  /\ path a1 = getFolderForType (type a1) +:+ "/" +:+ getFilenameFromUrl P u1 (type a1)
  /\ path a2 = getFolderForType (type a2) +:+ "/" +:+ getFilenameFromUrl P u2 (type a2)
  /\ (path a1 = path a2 <->
      getFolderForType (type a1) = getFolderForType (type a2)
      /\ filename a1 = filename a2).
Proof.
  intros Hr H1 H2 Hne. destruct (reachable_registered s Hr) as [Ha _].
  destruct (Ha u1 a1 H1) as (Ho1 & Hf1 & Hp1). destruct (Ha u2 a2 H2) as (Ho2 & Hf2 & Hp2).
  split; [congruence|]. split; [by rewrite Hp1, Hf1|]. split; [by rewrite Hp2, Hf2|].
  rewrite Hp1, Hp2. split.
  - apply zipPath_inj.
  - by intros [-> ->].
Qed.

(** *** Sub-downloads of a stylesheet *)

Lemma css_loop_zip u f z todo : forall processed c c' t,
  css_loop P u f z todo processed c = (c', t) ->
  stats c' = stats c /\ assets c' = assets c /\ zip c' = zip c /\ onLog c' = onLog c.
Proof.
  induction todo as [|a rest IH]; intros processed c c' t; simpl.
  - by intros [= <- <-].
  - case_decide; [by eauto|]. by intros [= <- <-].
Qed.


(** *** The constructor *)

(** C9. When the input does not parse as a URL, [new Crawler] throws
    [Invalid URL provided]; no session exists, so no event, and in
    particular no request, can follow; [handleStart], called with such a
    non-empty input, ends in the state [ERROR] without a session.  A crawler
    that is constructed has made no request. *)
Theorem invalid_url_fails_first u :
  newURL P u None = None ->
  new_Crawler P u = Throw "Invalid URL provided"
  /\ (forall es, session_after P u es = None)
  /\ (forall st, u <> EmptyString -> handleStart P u st = (ERROR_STATE, None))
  /\ (forall v c, new_Crawler P v = Ok c -> fetched c = []).
Proof.
  intros Hu. unfold session_after, handleStart, new_Crawler. rewrite Hu.
  repeat split; try done.
  - intros st Hne. by destruct u.
  - intros v c. destruct (newURL P v None); [|done]. by intros [= <-].
Qed.

(** *** Log lines *)

(** Decides whether a given line is a start line or a failure line. *)
Ltac line_simpl :=
  repeat match goal with
    | |- context [is_start_line (mkLog ?m ?l)] =>
        let b := eval cbv in (is_start_line (mkLog m l)) in
        change (is_start_line (mkLog m l)) with b
    | |- context [is_failure_line (mkLog ?m ?l)] =>
        let b := eval cbv in (is_failure_line (mkLog m l)) in
        change (is_failure_line (mkLog m l)) with b
    end.

Lemma count_lines_app f c c' l :
  onLog c' = onLog c ++ l ->
  count_lines f c' = count_lines f c + length (filter (fun e => f e) l).
Proof. unfold count_lines. intros ->. by rewrite filter_app, length_app. Qed.

Lemma count_lines_log f m l c :
  count_lines f (log m l c) = count_lines f c + (if f (mkLog m l) then 1 else 0).
Proof.
  rewrite (count_lines_app f c (log m l c) [mkLog m l] eq_refl), count_cons. simpl. lia.
Qed.

Lemma downloadAsset_start_log it c c' t :
  downloadAsset_start P it c = (c', t) ->
  (t = Settled Skipped /\ c' = c)
  \/ (is_launched t /\ in_flight t /\ has_outcome Failed t = false
      /\ onLog c' = onLog c
                    ++ [mkLog ("Fetching " +:+ Js.substring0 50 (item_url it) +:+ "...") INFO]).
Proof.
  unfold downloadAsset_start. case_decide; intros [= <- <-]; [by left|right]. by simpl.
Qed.

Lemma start_all_log chunk : forall c c' ts,
  start_all P chunk c = (c', ts) ->
  count_lines is_start_line c'
  = count_lines is_start_line c + length (filter (fun t => is_launched t) ts)
  /\ count_lines is_failure_line c' = count_lines is_failure_line c
  /\ (forall e, e ∈ onLog c' -> level e = SUCCESS -> e ∈ onLog c).
Proof.
  induction chunk as [|it chunk IH]; intros c c' ts; simpl.
  - intros [= <- <-]. simpl. repeat split; auto.
  - destruct (downloadAsset_start P it c) as [c1 t] eqn:E1.
    destruct (start_all P chunk c1) as [c2 ts'] eqn:E.
    intros [= <- <-]. destruct (IH _ _ _ E) as (H1 & H2 & H3).
    rewrite count_cons, H1, H2.
    apply downloadAsset_start_log in E1 as [[-> ->]|(Hl & _ & _ & Hlog)].
    + simpl. repeat split; auto.
    + rewrite (count_lines_app is_start_line _ _ _ Hlog).
      rewrite (count_lines_app is_failure_line _ _ _ Hlog).
      rewrite !count_cons. line_simpl. simpl. destruct (is_launched t); [|done].
      split; [lia|split; [lia|]]. intros e He Hs. specialize (H3 e He Hs).
      rewrite Hlog in H3. apply elem_of_app in H3 as [|Hin]; [done|].
      apply list_elem_of_singleton in Hin. subst e. done.
Qed.

Lemma respond_log net t c c' t' :
  respond P net t c = Some (c', t') ->
  is_launched t /\ is_launched t' /\ has_outcome Failed t = false
  /\ count_lines is_start_line c' = count_lines is_start_line c
  /\ count_lines is_failure_line c'
     = count_lines is_failure_line c + (if has_outcome Failed t' then 1 else 0)
  /\ (forall e, e ∈ onLog c' -> level e = SUCCESS -> e ∈ onLog c).
Proof.
  destruct t; simpl; try done.
  - destruct (fetchWithProxy P net u) as [body|err]; intros [= <- <-].
    + destruct t; simpl; repeat split; auto.
    + rewrite !count_lines_log. line_simpl. simpl. do 5 (split; [done || lia|]).
      intros e [|Hin%list_elem_of_singleton]%elem_of_app Hs; [done|]. by subst e.
  - destruct (fetchWithProxy P net _) as [body|err]; [intros [= <- <-]; simpl; repeat split; auto|].
    unfold css_next. destruct (css_loop _ _ _ _ _ _ _) as [c1 t1] eqn:E. intros [= <- <-].
    pose proof (css_loop_started _ _ _ _ _ _ _ _ E) as [Hst Hns].
    apply css_loop_zip in E as (_ & _ & _ & Hlog). simpl in Hlog.
    rewrite (count_lines_app is_start_line c _ _ Hlog).
    rewrite (count_lines_app is_failure_line c _ _ Hlog).
    rewrite !count_cons. line_simpl. simpl.
    assert (is_launched t1 /\ has_outcome Failed t1 = false) as [? ->]
      by (destruct t1; simpl in *; try done; tauto).
    do 5 (split; [done || lia|]).
    intros e He Hs. rewrite Hlog in He.
    apply elem_of_app in He as [|Hin%list_elem_of_singleton]; [done|]. by subst e.
Qed.

Lemma resume_log t c c' t' :
  resume P t c = Some (c', t') ->
  is_launched t /\ is_launched t' /\ has_outcome Failed t = false
  /\ has_outcome Failed t' = false
  /\ count_lines is_start_line c' = count_lines is_start_line c
  /\ count_lines is_failure_line c' = count_lines is_failure_line c
  /\ (forall e, e ∈ onLog c' -> level e = SUCCESS -> e ∈ onLog c).
Proof.
  destruct t; simpl; try done.
  - destruct (css_loop _ _ _ _ _ _ _) as [c1 t1] eqn:E. intros [= <- <-].
    pose proof (css_loop_started _ _ _ _ _ _ _ _ E) as [Hst Hns].
    apply css_loop_zip in E as (_ & _ & _ & Hlog).
    unfold count_lines. rewrite Hlog.
    assert (is_launched t1 /\ has_outcome Failed t1 = false) as [? ->]
      by (destruct t1; simpl in *; try done; tauto).
    repeat split; auto.
  - unfold css_next. destruct (css_loop _ _ _ _ _ _ _) as [c1 t1] eqn:E. intros [= <- <-].
    pose proof (css_loop_started _ _ _ _ _ _ _ _ E) as [Hst Hns].
    apply css_loop_zip in E as (_ & _ & _ & Hlog). simpl in Hlog.
    rewrite (count_lines_app is_start_line c _ _ Hlog).
    rewrite (count_lines_app is_failure_line c _ _ Hlog).
    rewrite !count_cons. line_simpl. simpl.
    assert (is_launched t1 /\ has_outcome Failed t1 = false) as [? ->]
      by (destruct t1; simpl in *; try done; tauto).
    do 6 (split; [done || lia|]).
    intros e He Hs. rewrite Hlog in He.
    apply elem_of_app in He as [|Hin%list_elem_of_singleton]; [done|]. by subst e.
  - intros [= <- <-]. simpl. repeat split; auto.
Qed.

Lemma logged_with_task s k t c' t' :
  logged s -> tasks s !! k = Some t ->
  is_launched t -> is_launched t' -> has_outcome Failed t = false ->
  count_lines is_start_line c' = count_lines is_start_line (crawler s) ->
  count_lines is_failure_line c'
  = count_lines is_failure_line (crawler s) + (if has_outcome Failed t' then 1 else 0) ->
  (forall e, e ∈ onLog c' -> level e = SUCCESS -> e ∈ onLog (crawler s)) ->
  logged (with_task k (c', t') s).
Proof.
  intros (H1 & H2 & H3) Hk Hl Hl' Hf Hs Hw Hsucc.
  pose proof (count_insert is_launched (tasks s) k t t' Hk) as Hc1.
  pose proof (count_insert (has_outcome Failed) (tasks s) k t t' Hk) as Hc2.
  rewrite Hf in Hc2. destruct (is_launched t), (is_launched t'); try done.
  unfold logged, count_outcome in *. simpl. repeat split; [lia|lia|]. auto.
Qed.

Lemma logged_start_chunk s k :
  logged s ->
  drop k (tasks s) = Queued <$> drop k (assetQueue s) ->
  logged (start_chunk P k s).
Proof.
  intros (H1 & H2 & H3) Hafter.
  destruct (tasks_start_chunk s k) as (c & started & E & Hc & HT & _).
  destruct (start_all_log _ _ _ _ E) as (L1 & L2 & L3).
  unfold logged. rewrite Hc, HT. split; [|split].
  - erewrite count_chunk_replaced; [|done|exact Hafter]. lia.
  - unfold count_outcome. erewrite count_chunk_replaced; [|done|exact Hafter].
    fold (count_outcome Failed started).
    rewrite (start_all_no_outcome Failed _ _ _ _ ltac:(done) E).
    unfold count_outcome in H2. lia.
  - auto.
Qed.

(** Counts the start and failure lines of a log that ends in given lines,
    and checks the [SUCCESS] lines among them. *)
Ltac count_logs :=
  unfold logged, count_lines, count_outcome in *; simpl in *;
  rewrite ?filter_app, ?length_app, ?count_cons; line_simpl; simpl.

Ltac success_lines H :=
  let e := fresh "e" in let He := fresh "He" in let Hs := fresh "Hs" in
  intros e He Hs;
  repeat (apply elem_of_app in He as [He|He%list_elem_of_singleton]);
  [by apply H|subst e; try discriminate Hs; unfold driver_success_line; simpl; tauto..].

Lemma logged_step e s s' : shape s -> logged s -> step P e s = Some s' -> logged s'.
Proof.
  intros Hsh Hlg Hstep. pose proof Hsh as [Hlen Hphase]. pose proof Hlg as (H1 & H2 & H3).
  unfold step in Hstep.
  destruct e as [ | | | | |r]; [..|destruct r]; destruct (phase s) eqn:Hph; try done.
  - injection Hstep as <-. count_logs. split; [lia|split; [lia|]]. success_lines H3.
  - destruct (fetchWithProxy P net _) as [html|err]; injection Hstep as <-; [done|].
    count_logs. split; [lia|split; [lia|]]. success_lines H3.
  - destruct (tasks s !! k) as [t|] eqn:Hk; simpl in Hstep; [|done].
    destruct (respond P net t (crawler s)) as [[c' t']|] eqn:Hr; simpl in Hstep; [|done].
    injection Hstep as <-. apply respond_log in Hr as (?&?&?&?&?&?).
    eapply logged_with_task; eauto.
  - destruct (tasks s !! k) as [t|] eqn:Hk; simpl in Hstep; [|done].
    destruct (resume P t (crawler s)) as [[c' t']|] eqn:Hr; simpl in Hstep; [|done].
    injection Hstep as <-. apply resume_log in Hr as (?&?&?&Hf&?&?&?).
    eapply logged_with_task; eauto. rewrite Hf. lia.
  - injection Hstep as <-.
    destruct (scan_page_cases html s) as [(_ & Ht & _ & _ & _ & e & Hcr)|[baseUrl ->]].
    + unfold logged. rewrite Ht, Hcr. rewrite Hphase in *. count_logs.
      split; [lia|split; [lia|]]. success_lines H3.
    + apply logged_start_chunk; [|done].
      set (q := discover P (parseFromString P html) baseUrl).
      assert (forall f : Task -> bool, (forall it, f (Queued it) = false) ->
                length (filter (fun t => f t) (Queued <$> q)) = 0) as Hq.
      { intros f Hf. apply count_none, Forall_fmap, Forall_forall. intros it _. apply Hf. }
      rewrite Hphase in *. count_logs. rewrite !Hq by done.
      split; [lia|split; [lia|]]. success_lines H3.
  - destruct Hphase as (Hbefore & Hchunk & Hafter).
    destruct (forallb is_settled _); [|done].
    destruct (i s + CONCURRENCY <? length (assetQueue s))%nat; injection Hstep as <-.
    + by apply logged_start_chunk.
    + count_logs. split; [lia|split; [lia|]]. success_lines H3.
  - injection Hstep as <-. count_logs. split; [lia|split; [lia|]]. success_lines H3.
  - injection Hstep as <-. count_logs. split; [lia|split; [lia|]]. success_lines H3.
Qed.

Lemma logged_new c u : new_Crawler P u = Ok c -> logged (new_session c).
Proof.
  unfold new_Crawler. destruct (newURL P u None); [|done]. intros [= <-].
  repeat split; simpl; try done. by intros e ?%elem_of_nil.
Qed.

Lemma reachable_logged s : reachable P s -> logged s.
Proof.
  intros Hr.
  cut (shape s /\ logged s); [tauto|]. revert s Hr.
  apply reachable_invariant.
  - intros u c Hc. split; [apply shape_new|by eapply logged_new].
  - intros e s s' [Hsh Hc] Hstep. split; [by eapply shape_step|by eapply logged_step].
Qed.

(** *** Accounting per task *)

Lemma respond_totalSize net t c c' t' :
  respond P net t c = Some (c', t') ->
  totalSize (stats c') = totalSize (stats c) + received P net t.
Proof.
  unfold received. destruct t; simpl; try done.
  - destruct (fetchWithProxy P net u); intros [= <- <-]; simpl; lia.
  - destruct (fetchWithProxy P net _); [intros [= <- <-]; simpl; lia|].
    unfold css_next. destruct (css_loop _ _ _ _ _ _ _) as [c1 t1] eqn:E. intros [= <- <-].
    apply css_loop_zip in E as (-> & _). simpl. lia.
Qed.

(** C7, as amended.  In every reachable state:
    - [assetsDownloaded] is the number of tasks that ended successfully,
      and the step that ends a task successfully (the continuation at
      [Store]) adds exactly one to it and logs nothing;
    - the number of start lines is the number of tasks that passed the
      visited check, and the number of failure lines (level [WARNING]) is
      the number of failed tasks;
    - every [SUCCESS] line is one of the three lines of [start], so a
      successful task has no line for its outcome;
    - [totalSize] grows by the length of the body each time a request of a
      task is answered (the task's own body and each body of a sub-asset of
      a stylesheet), and a continuation never changes it. *)
Theorem task_accounting s :
  reachable P s ->
  assetsDownloaded (stats (crawler s)) = count_outcome Succeeded (tasks s)
  /\ count_lines is_start_line (crawler s)
     = length (filter (fun t => is_launched t) (tasks s))
  /\ count_lines is_failure_line (crawler s) = count_outcome Failed (tasks s)
  /\ (forall e, e ∈ onLog (crawler s) -> level e = SUCCESS -> driver_success_line e)
  /\ (forall k net t s',
        tasks s !! k = Some t -> step P (Respond k net) s = Some s' ->
        totalSize (stats (crawler s')) = totalSize (stats (crawler s)) + received P net t
        /\ assetsDownloaded (stats (crawler s')) = assetsDownloaded (stats (crawler s)))
  /\ (forall k t s',
        tasks s !! k = Some t -> step P (Resume k) s = Some s' ->
        totalSize (stats (crawler s')) = totalSize (stats (crawler s))
        /\ forall t', tasks s' !! k = Some t' ->
             assetsDownloaded (stats (crawler s'))
             = assetsDownloaded (stats (crawler s))
               + (if has_outcome Succeeded t' then 1 else 0))
  /\ (forall k u ty f z content s',
        tasks s !! k = Some (Store u ty f z content) ->
        step P (Resume k) s = Some s' ->
        tasks s' = <[k := Settled Succeeded]> (tasks s)
        /\ onLog (crawler s') = onLog (crawler s)
        /\ assetsDownloaded (stats (crawler s')) = assetsDownloaded (stats (crawler s)) + 1).
Proof.
  intros Hr. destruct (reachable_counted s Hr) as (_ & Hd & _).
  destruct (reachable_logged s Hr) as (L1 & L2 & L3).
  do 4 (split; [done|]). split; [|split].
  - intros k net t s' Hk Hstep. unfold step in Hstep.
    destruct (phase s); try done. rewrite Hk in Hstep. simpl in Hstep.
    destruct (respond P net t (crawler s)) as [[c' t']|] eqn:E; simpl in Hstep; [|done].
    injection Hstep as <-. simpl. split; [by eapply respond_totalSize|].
    by apply respond_stats in E as (_ & ? & _).
  - intros k t s' Hk Hstep. unfold step in Hstep.
    destruct (phase s); try done. rewrite Hk in Hstep. simpl in Hstep.
    destruct (resume P t (crawler s)) as [[c' t']|] eqn:E; simpl in Hstep; [|done].
    injection Hstep as <-. simpl. apply resume_stats in E as (_ & Hdl & _ & Hts & _).
    split; [done|]. intros t'' Hk'.
    rewrite list_lookup_insert_eq in Hk' by (by eapply lookup_lt_Some).
    by injection Hk' as <-.
  - intros k u ty f z content s' Hk Hstep. unfold step in Hstep.
    destruct (phase s); try done. rewrite Hk in Hstep. simpl in Hstep.
    injection Hstep as <-. simpl. repeat split; lia.
Qed.

(** *** Every task settles *)

Lemma run_app es1 es2 s :
  run P (es1 ++ es2) s = s1 ← run P es1 s; run P es2 s1.
Proof.
  revert s. induction es1 as [|e es1 IH]; intros s; simpl; [done|].
  destruct (step P e s); simpl; [apply IH|done].
Qed.

Lemma run_cons e es s : run P (e :: es) s = s1 ← step P e s; run P es s1.
Proof. done. Qed.

Lemma step_respond s k net t ct :
  phase s = Downloading -> tasks s !! k = Some t ->
  respond P net t (crawler s) = Some ct ->
  step P (Respond k net) s = Some (with_task k ct s).
Proof. intros Hph Hk Hr. unfold step. rewrite Hph, Hk. simpl. by rewrite Hr. Qed.

Lemma step_resume s k t ct :
  phase s = Downloading -> tasks s !! k = Some t ->
  resume P t (crawler s) = Some ct ->
  step P (Resume k) s = Some (with_task k ct s).
Proof. intros Hph Hk Hr. unfold step. rewrite Hph, Hk. simpl. by rewrite Hr. Qed.

Lemma css_loop_weight u f z todo : forall processed c c' t,
  css_loop P u f z todo processed c = (c', t) ->
  past_body t /\ weight t <= 2 * length todo + 1.
Proof.
  induction todo as [|a rest IH]; intros processed c c' t; simpl.
  - intros [= <- <-]. simpl. split; [done|lia].
  - case_decide.
    + intros E. apply IH in E as [? ?]. split; [done|lia].
    + intros [= <- <-]. simpl. split; [done|lia].
Qed.

Lemma settle_past_body (net : Network) n : forall s k t,
  weight t <= n -> past_body t ->
  phase s = Downloading -> tasks s !! k = Some t ->
  exists es s' o,
    run P es s = Some s' /\ served_by net es /\ same_loop s s'
    /\ tasks s' = <[k := Settled o]> (tasks s).
Proof.
  induction n as [|n IH]; intros s k t Hw Hp Hph Hk.
  { destruct t; simpl in *; try done; lia. }
  assert (k < length (tasks s)) as Hlt by (by eapply lookup_lt_Some).
  assert (forall ct : Crawler * Task,
            past_body (snd ct) -> weight (snd ct) <= n ->
            exists es s' o,
              run P es (with_task k ct s) = Some s' /\ served_by net es /\ same_loop s s'
              /\ tasks s' = <[k := Settled o]> (tasks s)) as Hnext.
  { intros ct Hp' Hw'.
    destruct (IH (with_task k ct s) k (snd ct) Hw' Hp' Hph) as (es & s' & o & Hrun & Hnet & Hsame & Ht).
    { simpl. by rewrite list_lookup_insert_eq. }
    exists es, s', o. split; [done|]. split; [done|]. split; [done|].
    rewrite Ht. simpl. by rewrite list_insert_insert_eq. }
  destruct t as [| | |f|f blob|u ty fn z content|]; try done.
  - (* the request of a sub-asset is outstanding *)
    destruct (respond P net (AwaitSub f) (crawler s)) as [ct|] eqn:E.
    2: { simpl in E. destruct (fetchWithProxy P net _); [done|]. by destruct (css_next P f _). }
    destruct (Hnext ct) as (es & s' & o & Hrun & Hnet & Hsame & Ht).
    { simpl in E. destruct (fetchWithProxy P net _); [by injection E as <-|].
      unfold css_next in E. destruct (css_loop _ _ _ _ _ _ _) as [c1 t1] eqn:El.
      injection E as <-. by apply css_loop_weight in El as [? _]. }
    { simpl in E. simpl in Hw. destruct (fetchWithProxy P net _); [injection E as <-; simpl; lia|].
      unfold css_next in E. destruct (css_loop _ _ _ _ _ _ _) as [c1 t1] eqn:El.
      injection E as <-. apply css_loop_weight in El as [_ ?]. simpl. lia. }
    exists (Respond k net :: es), s', o. split; [|split; [by constructor|done]].
    by rewrite run_cons, (step_respond s k net _ ct Hph Hk E).
  - (* the blob of a sub-asset has arrived *)
    destruct (resume P (GotSub f blob) (crawler s)) as [ct|] eqn:E; [|done].
    destruct (Hnext ct) as (es & s' & o & Hrun & Hnet & Hsame & Ht).
    { simpl in E. unfold css_next in E. destruct (css_loop _ _ _ _ _ _ _) as [c1 t1] eqn:El.
      injection E as <-. by apply css_loop_weight in El as [? _]. }
    { simpl in E. simpl in Hw. unfold css_next in E.
      destruct (css_loop _ _ _ _ _ _ _) as [c1 t1] eqn:El.
      injection E as <-. apply css_loop_weight in El as [_ ?]. simpl. lia. }
    exists (Resume k :: es), s', o. split; [|split; [by constructor|done]].
    by rewrite run_cons, (step_resume s k _ ct Hph Hk E).
  - (* the content is ready *)
    destruct (resume P (Store u ty fn z content) (crawler s)) as [ct|] eqn:E; [|done].
    exists [Resume k], (with_task k ct s), Succeeded.
    split; [|split; [by repeat constructor|split]].
    + by rewrite run_cons, (step_resume s k _ ct Hph Hk E).
    + by repeat split.
    + simpl in E. by injection E as <-.
Qed.

Lemma settle_css_text (net : Network) s k u fn z text :
  phase s = Downloading -> tasks s !! k = Some (CssText u fn z text) ->
  exists es s' o,
    run P es s = Some s' /\ served_by net es /\ same_loop s s'
    /\ tasks s' = <[k := Settled o]> (tasks s).
Proof.
  intros Hph Hk.
  assert (k < length (tasks s)) as Hlt by (by eapply lookup_lt_Some).
  destruct (resume P (CssText u fn z text) (crawler s)) as [ct|] eqn:E; [|done].
  destruct (settle_past_body net (weight (snd ct)) (with_task k ct s) k (snd ct))
    as (es & s' & o & Hrun & Hnet & Hsame & Ht); try done.
  { simpl in E. destruct (css_loop _ _ _ _ _ _ _) as [c1 t1] eqn:El.
    injection E as <-. by apply css_loop_weight in El as [? _]. }
  { simpl. by rewrite list_lookup_insert_eq. }
  exists (Resume k :: es), s', o. split; [|split; [by constructor|split; [done|]]].
  - by rewrite run_cons, (step_resume s k _ ct Hph Hk E).
  - rewrite Ht. simpl. by rewrite list_insert_insert_eq.
Qed.

Lemma settle_task (net : Network) s k t :
  in_flight t -> phase s = Downloading -> tasks s !! k = Some t ->
  exists es s' o,
    run P es s = Some s' /\ served_by net es /\ same_loop s s'
    /\ tasks s' = <[k := Settled o]> (tasks s).
Proof.
  intros Hfl Hph Hk.
  assert (k < length (tasks s)) as Hlt by (by eapply lookup_lt_Some).
  destruct t as [|u ty fn z|u fn z text|f|f blob|u ty fn z content|]; try done.
  - (* the request of the task's own body is outstanding *)
    destruct (respond P net (AwaitBody u ty fn z) (crawler s)) as [[c1 t1]|] eqn:E.
    2: { simpl in E. by destruct (fetchWithProxy P net u). }
    pose proof (step_respond s k net _ _ Hph Hk E) as Hstep.
    assert (tasks (with_task k (c1, t1) s) !! k = Some t1) as Hk1
      by (simpl; by rewrite list_lookup_insert_eq).
    assert (t1 = Settled Failed \/ past_body t1 \/ exists text, t1 = CssText u fn z text)
      as [->|[Hp|[text ->]]].
    { simpl in E. destruct (fetchWithProxy P net u); injection E as <- <-; [|by left].
      right. destruct ty; simpl; eauto. }
    + exists [Respond k net], (with_task k (c1, Settled Failed) s), Failed.
      split; [by rewrite run_cons, Hstep|]. split; [by repeat constructor|]. by repeat split.
    + destruct (settle_past_body net (weight t1) (with_task k (c1, t1) s) k t1)
        as (es & s' & o & Hrun & Hnet & Hsame & Ht); try done.
      exists (Respond k net :: es), s', o. split; [by rewrite run_cons, Hstep|].
      split; [by constructor|]. split; [done|]. rewrite Ht. simpl. by rewrite list_insert_insert_eq.
    + destruct (settle_css_text net (with_task k (c1, CssText u fn z text) s) k u fn z text)
        as (es & s' & o & Hrun & Hnet & Hsame & Ht); try done.
      exists (Respond k net :: es), s', o. split; [by rewrite run_cons, Hstep|].
      split; [by constructor|]. split; [done|]. rewrite Ht. simpl. by rewrite list_insert_insert_eq.
  - by eapply settle_css_text.
  - by eapply (settle_past_body net (weight (AwaitSub f))).
  - by eapply (settle_past_body net (weight (GotSub f blob))).
  - by eapply (settle_past_body net (weight (Store u ty fn z content))).
Qed.

Lemma in_flight_exists (ts : list Task) :
  length (filter (fun t => in_flight t) ts) <> 0 ->
  exists k t, ts !! k = Some t /\ in_flight t.
Proof.
  induction ts as [|t ts IH]; [done|]. rewrite count_cons.
  destruct (in_flight t) eqn:E.
  - intros _. exists 0, t. split; [done|]. by rewrite E.
  - simpl. intros H. destruct (IH H) as (k & t' & Hk & Hf). by exists (S k), t'.
Qed.

(** All tasks in flight can be driven to settle. *)
Lemma settle_all (net : Network) n : forall s,
  length (filter (fun t => in_flight t) (tasks s)) <= n ->
  phase s = Downloading ->
  exists es s',
    run P es s = Some s' /\ served_by net es /\ same_loop s s'
    /\ length (filter (fun t => in_flight t) (tasks s')) = 0.
Proof.
  induction n as [|n IH]; intros s Hn Hph.
  { exists [], s. split; [done|]. split; [constructor|]. split; [by repeat split|lia]. }
  destruct (decide (length (filter (fun t => in_flight t) (tasks s)) = 0)) as [Hz|Hnz].
  { exists [], s. split; [done|]. split; [constructor|]. split; [by repeat split|done]. }
  destruct (in_flight_exists _ Hnz) as (k & t & Hk & Hfl).
  destruct (settle_task net s k t Hfl Hph Hk) as (es1 & s1 & o & Hrun1 & Hnet1 & Hsame1 & Ht1).
  pose proof (count_insert in_flight (tasks s) k t (Settled o) Hk) as Hc.
  destruct (in_flight t); [|done]. simpl in Hc.
  destruct (IH s1) as (es2 & s2 & Hrun2 & Hnet2 & Hsame2 & Hz2).
  { rewrite Ht1. lia. }
  { destruct Hsame1 as (-> & _). done. }
  exists (es1 ++ es2), s2. split; [|split; [by apply Forall_app|split; [|done]]].
  - rewrite run_app, Hrun1. exact Hrun2.
  - destruct Hsame1 as (?&?&?&?), Hsame2 as (?&?&?&?). repeat split; congruence.
Qed.

Lemma count_zero_Forall {A} (f : A -> bool) (l : list A) :
  length (filter (fun a => f a) l) = 0 -> Forall (fun a => f a = false) l.
Proof.
  induction l as [|a l IH]; [constructor|]. rewrite count_cons.
  destruct (f a) eqn:E; [done|]. simpl. intros H. constructor; auto.
Qed.

Lemma run_after es1 es2 s s1 :
  run P es1 s = Some s1 -> run P (es1 ++ es2) s = run P es2 s1.
Proof. intros H. by rewrite run_app, H. Qed.

(** From any state inside [processAssets] the session can be driven to the
    generation of the archive, whatever the network answers. *)
Lemma downloads_complete (net : Network) n : forall s,
  length (assetQueue s) - i s <= n ->
  shape s -> phase s = Downloading ->
  exists es s', run P es s = Some s' /\ served_by net es /\ phase s' = AwaitZip.
Proof.
  induction n as [|n IH]; intros s Hn Hsh Hph.
  all: destruct (settle_all net _ s (le_n _) Hph) as (es1 & s1 & Hrun1 & Hnet1 & Hsame1 & Hz).
  all: pose proof (run_invariant shape shape_step _ _ _ Hsh Hrun1) as Hsh1.
  all: destruct Hsame1 as (Hph1 & Hi1 & Hq1 & _); rewrite Hph in Hph1.
  all: pose proof Hsh1 as [Hlen1 Hshape1]; rewrite Hph1 in Hshape1;
       destruct Hshape1 as (_ & Hchunk & _).
  all: assert (forallb is_settled (slice (i s1) (i s1 + CONCURRENCY) (tasks s1)) = true) as Hall
    by (apply Is_true_true_1, forallb_True;
        apply count_zero_Forall in Hz; unfold slice in *;
        assert (Forall (fun a => in_flight a = false)
                  (take (i s1 + CONCURRENCY - i s1) (drop (i s1) (tasks s1)))) as Hz'
          by (by apply Forall_take, Forall_drop);
        apply Forall_lookup; intros j t Hj;
        pose proof (Forall_lookup_1 _ _ _ _ Hchunk Hj) as Hst;
        pose proof (Forall_lookup_1 _ _ _ _ Hz' Hj) as Hnf;
        simpl in *; unfold in_flight in Hnf;
        destruct (is_started t), (is_settled t); done).
  all: assert (step P Continue s1
               = Some (if (i s1 + CONCURRENCY <? length (assetQueue s1))%nat
                       then start_chunk P (i s1 + CONCURRENCY) s1 else finish_page P s1)) as Hstep
    by (unfold step; rewrite Hph1, Hall; by destruct (_ <? _)%nat).
  all: destruct (i s1 + CONCURRENCY <? length (assetQueue s1))%nat eqn:Hmore.
  - apply Nat.ltb_lt in Hmore. rewrite Hi1, Hq1 in Hmore. unfold CONCURRENCY in *. lia.
  - exists (es1 ++ [Continue]), (finish_page P s1).
    split; [|split; [apply Forall_app; split; [done|by repeat constructor]|done]].
    rewrite (run_after _ _ _ _ Hrun1), run_cons, Hstep. reflexivity.
  - apply Nat.ltb_lt in Hmore.
    destruct (IH (start_chunk P (i s1 + CONCURRENCY) s1)) as (es2 & s2 & Hrun2 & Hnet2 & Hph2).
    + rewrite assetQueue_start_chunk, i_start_chunk, Hi1, Hq1.
      rewrite Hi1, Hq1 in Hmore. unfold CONCURRENCY in *. lia.
    + eapply shape_step; [exact Hsh1|]. rewrite Hstep. reflexivity.
    + apply phase_start_chunk.
    + exists (es1 ++ Continue :: es2), s2.
      split; [|split; [apply Forall_app; split; [done|by constructor]|done]].
      rewrite (run_after _ _ _ _ Hrun1), run_cons, Hstep. exact Hrun2.
  - exists (es1 ++ [Continue]), (finish_page P s1).
    split; [|split; [apply Forall_app; split; [done|by repeat constructor]|done]].
    rewrite (run_after _ _ _ _ Hrun1), run_cons, Hstep. reflexivity.
Qed.

Lemma session_can_finish (net : Network) s :
  shape s -> phase s = Downloading ->
  exists es s', run P es s = Some s' /\ served_by net es /\ phase s' = Finished.
Proof.
  intros Hsh Hph.
  destruct (downloads_complete net _ s (le_n _) Hsh Hph) as (es & s1 & Hrun & Hnet & Hph1).
  exists (es ++ [ZipGenerated (Ok tt)]). eexists.
  rewrite (run_after _ _ _ _ Hrun), run_cons.
  unfold step. rewrite Hph1.
  split; [reflexivity|split; [apply Forall_app; split; [done|by repeat constructor]|done]].
Qed.

(** *** Failures of single tasks *)

Lemma in_flight_downloading s k t :
  shape s -> tasks s !! k = Some t -> in_flight t -> phase s = Downloading.
Proof.
  intros [_ Hphase] Hk Hfl. unfold in_flight in Hfl. apply andb_True in Hfl as [Hst Hns].
  destruct (phase s); try done.
  1-3: by rewrite Hphase in Hk.
  all: eapply Forall_lookup_1 in Hphase; [|exact Hk]; simpl in Hphase;
    destruct (is_settled t); done.
Qed.

Lemma settled_partition (ts : list Task) :
  Forall (fun t => is_settled t) ts ->
  count_outcome Succeeded ts + count_outcome Failed ts + count_outcome Skipped ts
  = length ts.
Proof.
  unfold count_outcome. induction 1 as [|t ts Ht _ IH]; [done|].
  rewrite !count_cons. simpl. destruct t as [| | | | | |[]]; simpl in *; try done; lia.
Qed.

Lemma downloading_stays s e s' :
  phase s = Downloading -> step P e s = Some s' ->
  phase s' = Downloading \/ phase s' = AwaitZip.
Proof.
  intros Hph Hstep. unfold step in Hstep. rewrite Hph in Hstep.
  destruct e as [ | | | | |r]; [..|destruct r]; try done.
  - destruct (tasks s !! k) as [t|]; simpl in Hstep; [|done].
    destruct (respond P net t (crawler s)); simpl in Hstep; [|done].
    injection Hstep as <-. by left.
  - destruct (tasks s !! k) as [t|]; simpl in Hstep; [|done].
    destruct (resume P t (crawler s)); simpl in Hstep; [|done].
    injection Hstep as <-. by left.
  - destruct (forallb is_settled _); [|done].
    destruct (_ <? _)%nat; injection Hstep as <-.
    + left. apply phase_start_chunk.
    + by right.
Qed.

(** C6, as amended.  In every reachable state:
    - when the request of a task fails on all relays, the answer settles
      that task as failed, appends one [WARNING] line that names its URL,
      and changes no counter, no other task and not the phase;
    - no step taken inside [processAssets] makes [start] throw: the session
      stays in [processAssets] or goes on to generate the archive;
    - whatever the network answers, the session can be driven from inside
      [processAssets] to its successful end;
    - once all tasks are settled, [assetsDownloaded] plus the failed and
      the skipped tasks is [assetsFound]; so when exactly one task failed
      and none was skipped as already visited, [assetsDownloaded] is
      [assetsFound - 1]. *)
Theorem asset_failure_is_tolerated s :
  reachable P s ->
  (forall k net u ty f z err,
      tasks s !! k = Some (AwaitBody u ty f z) ->
      fetchWithProxy P net u = Throw err ->
      exists s',
        step P (Respond k net) s = Some s'
        /\ phase s' = Downloading
        /\ tasks s' = <[k := Settled Failed]> (tasks s)
        /\ onLog (crawler s')
           = onLog (crawler s) ++ [mkLog ("Failed to download " +:+ u +:+ ": " +:+ err) WARNING]
        /\ stats (crawler s') = stats (crawler s))
  /\ (phase s = Downloading ->
      forall e s', step P e s = Some s' -> phase s' = Downloading \/ phase s' = AwaitZip)
  /\ (phase s = Downloading ->
      forall net, exists es s',
        run P es s = Some s' /\ served_by net es /\ phase s' = Finished)
  /\ (Forall (fun t => is_settled t) (tasks s) ->
      assetsDownloaded (stats (crawler s))
      + count_outcome Failed (tasks s) + count_outcome Skipped (tasks s)
      = assetsFound (stats (crawler s)))
  /\ (Forall (fun t => is_settled t) (tasks s) ->
      count_outcome Failed (tasks s) = 1 -> count_outcome Skipped (tasks s) = 0 ->
      assetsDownloaded (stats (crawler s)) = assetsFound (stats (crawler s)) - 1).
Proof.
  intros Hr. pose proof (reachable_shape s Hr) as Hsh.
  destruct (reachable_counted s Hr) as (Hf & Hd & _).
  split; [|split; [|split; [|split]]].
  - intros k net u ty f z err Hk Hfetch.
    pose proof (in_flight_downloading s k _ Hsh Hk I) as Hph.
    exists (with_task k
              (log ("Failed to download " +:+ u +:+ ": " +:+ err) WARNING (crawler s),
               Settled Failed) s).
    split; [|by repeat split].
    apply (step_respond s k net _ _ Hph Hk). simpl. by rewrite Hfetch.
  - intros Hph e s'. by apply downloading_stays.
  - intros Hph net. by apply session_can_finish.
  - intros Hall. rewrite Hf, Hd. by apply settled_partition.
  - intros Hall H1 H0. pose proof (settled_partition _ Hall) as Hp.
    rewrite Hf, Hd. lia.
Qed.

(** ** Further properties of the code *)

(** *** Strings *)

Lemma append_cons c (s t : string) : String c s +:+ t = String c (s +:+ t).
Proof. reflexivity. Qed.

Lemma append_nil_l (t : string) : EmptyString +:+ t = t.
Proof. reflexivity. Qed.

Lemma append_nil_r (s : string) : s +:+ EmptyString = s.
Proof. induction s as [|c s IH]; [done|]. by rewrite append_cons, IH. Qed.

Lemma append_assoc (a b c : string) : (a +:+ b) +:+ c = a +:+ (b +:+ c).
Proof. induction a as [|x a IH]; [done|]. by rewrite !append_cons, IH. Qed.

Lemma length_append (a b : string) :
  String.length (a +:+ b) = String.length a + String.length b.
Proof. induction a as [|x a IH]; [done|]. rewrite append_cons. simpl. by rewrite IH. Qed.

Lemma prefixb_append (p s : string) : Js.prefixb p (p +:+ s) = true.
Proof.
  induction p as [|a p IH]; [done|]. rewrite append_cons. simpl.
  rewrite Ascii.eqb_refl. exact IH.
Qed.

Lemma prefixb_split (p s : string) :
  Js.prefixb p s = true -> s = p +:+ Js.drop (String.length p) s.
Proof.
  revert s. induction p as [|a p IH]; intros s; simpl; [done|].
  destruct s as [|b s]; [done|]. intros [Hab Hp]%andb_prop.
  apply Ascii.eqb_eq in Hab as ->. rewrite append_cons. f_equal. by apply IH.
Qed.

Lemma drop_append (p s : string) : Js.drop (String.length p) (p +:+ s) = s.
Proof. induction p as [|a p IH]; [by destruct s|]. rewrite append_cons. exact IH. Qed.

Lemma drop_nil (k : nat) : Js.drop k EmptyString = EmptyString.
Proof. by destruct k. Qed.

Lemma includes_char_append c (a b : string) :
  Js.includes_char c (a +:+ b) = Js.includes_char c a || Js.includes_char c b.
Proof.
  induction a as [|x a IH]; [done|]. rewrite append_cons. simpl.
  destruct (Ascii.eqb c x); [done|exact IH].
Qed.

(** *** The relay fetch client *)

(** X1. [fetchWithProxy] asks the three relays in their fixed order and
    returns the body of the first one that answers; it fails exactly when
    all three fail, and the error then names the URL and carries the error
    of the last relay. *)
Theorem relays_are_tried_in_order (net : Network) (u : string) :
  let r1 := "https://api.allorigins.win/raw?url=" +:+ encodeURIComponent P u in
  let r2 := "https://corsproxy.io/?" +:+ encodeURIComponent P u in
  let r3 := "https://api.codetabs.com/v1/proxy?quest=" +:+ encodeURIComponent P u in
  (forall b,
      fetchWithProxy P net u = Ok b <->
      net r1 = Ok b
      \/ ((exists e1, net r1 = Throw e1) /\ net r2 = Ok b)
      \/ ((exists e1, net r1 = Throw e1) /\ (exists e2, net r2 = Throw e2) /\ net r3 = Ok b))
  /\ (forall e,
        fetchWithProxy P net u = Throw e <->
        exists e1 e2 e3,
          net r1 = Throw e1 /\ net r2 = Throw e2 /\ net r3 = Throw e3
          /\ e = "All proxies failed to fetch " +:+ u +:+ ". Last error: " +:+ e3).
Proof.
  intros r1 r2 r3.
  assert (fetchWithProxy P net u
          = match net r1 with
            | Ok b => Ok b
            | Throw _ =>
                match net r2 with
                | Ok b => Ok b
                | Throw _ =>
                    match net r3 with
                    | Ok b => Ok b
                    | Throw e3 =>
                        Throw ("All proxies failed to fetch " +:+ u +:+ ". Last error: " +:+ e3)
                    end
                end
            end) as -> by reflexivity.
  split.
  - intros b. split.
    + destruct (net r1) as [b1|e1]; [intros [= <-]; by left|].
      destruct (net r2) as [b2|e2]; [intros [= <-]; right; left; eauto|].
      destruct (net r3) as [b3|e3]; [intros [= <-]; right; right; eauto|done].
    + intros [->|[[[e1 ->] ->]|[[e1 ->] [[e2 ->] ->]]]]; done.
  - intros e. split.
    + destruct (net r1) as [b1|e1]; [done|].
      destruct (net r2) as [b2|e2]; [done|].
      destruct (net r3) as [b3|e3]; [done|]. intros [= <-]. by exists e1, e2, e3.
    + intros (e1 & e2 & e3 & -> & -> & -> & ->). done.
Qed.

(** *** File names *)

Lemma last_segment_from_clean c : forall s acc,
  Js.includes_char c acc = false ->
  Js.includes_char c (Js.last_segment_from c acc s) = false.
Proof.
  induction s as [|d s IH]; intros acc Hacc; simpl; [done|].
  destruct (Ascii.eqb c d) eqn:E; [by apply IH|].
  apply IH. rewrite includes_char_append, Hacc. simpl. by rewrite E.
Qed.

Lemma before_first_clean d c : forall s,
  Js.includes_char c s = false -> Js.includes_char c (Js.before_first d s) = false.
Proof.
  induction s as [|x s IH]; simpl; [done|].
  destruct (Ascii.eqb c x) eqn:E; [done|]. intros H.
  destruct (Ascii.eqb d x); simpl; [done|]. rewrite E. by apply IH.
Qed.

Lemma before_first_free d : forall s, Js.includes_char d (Js.before_first d s) = false.
Proof.
  induction s as [|x s IH]; simpl; [done|].
  destruct (Ascii.eqb d x) eqn:E; simpl; [done|]. by rewrite E.
Qed.

(** X2. For a URL that parses, the file name [getFilenameFromUrl] assigns
    always has an extension (it contains a dot), contains neither a slash
    nor a question mark, and is not empty; for a URL that does not parse
    it is [file_] followed by the random suffix. *)
Theorem filename_is_flat_with_extension (u : string) (t : AssetType) :
  match newURL P u None with
  | Some _ =>
      Js.includes_char "." (getFilenameFromUrl P u t) = true
      /\ Js.includes_char "/" (getFilenameFromUrl P u t) = false
      /\ Js.includes_char "?" (getFilenameFromUrl P u t) = false
      /\ getFilenameFromUrl P u t <> EmptyString
  | None => getFilenameFromUrl P u t = "file_" +:+ randomSuffix P
  end.
Proof.
  unfold getFilenameFromUrl. destruct (newURL P u None) as [parsed|]; [|done].
  set (seg := Js.last_segment "/" (pathname parsed)).
  set (name := match seg with EmptyString => "index" | _ => seg end).
  assert (Js.includes_char "/" name = false) as Hslash.
  { unfold name. destruct seg eqn:E; [done|]. rewrite <- E. unfold seg.
    by apply last_segment_from_clean. }
  pose proof (before_first_clean "?" "/" name Hslash) as Hs.
  pose proof (before_first_free "?" name) as Hq.
  set (n := Js.before_first "?" name) in *.
  assert (forall ext, Js.includes_char "." ext = true ->
                      Js.includes_char "/" ext = false ->
                      Js.includes_char "?" ext = false ->
          Js.includes_char "." (n +:+ ext) = true
          /\ Js.includes_char "/" (n +:+ ext) = false
          /\ Js.includes_char "?" (n +:+ ext) = false
          /\ n +:+ ext <> EmptyString) as Hext.
  { intros ext H1 H2 H3. rewrite !includes_char_append, H1, H2, H3, Hs, Hq.
    rewrite orb_true_r. repeat split. intros He.
    apply (f_equal (Js.includes_char ".")) in He.
    rewrite includes_char_append, H1, orb_true_r in He. done. }
  destruct (Js.includes_char "." n) eqn:Hdot.
  - repeat split; try done. intros He. by rewrite He in Hdot.
  - destruct t; by apply Hext.
Qed.

(** *** The regular expression *)

Lemma starts_with_drop (p rest s : string) :
  s = p +:+ rest -> s = p +:+ Js.drop (String.length p) s.
Proof. intros ->. by rewrite drop_append. Qed.

Lemma lazy_until_sound closer : forall s r,
  UrlRegex.lazy_until closer s = Some r ->
  (exists rest, s = r +:+ closer +:+ rest)
  /\ all_chars (fun c => negb (UrlRegex.is_line_terminator c)) r = true.
Proof.
  induction s as [|c s IH]; intros r; simpl.
  - destruct (Js.prefixb closer "") eqn:E; [|done]. intros [= <-].
    split; [|done]. exists (Js.drop (String.length closer) "").
    rewrite append_nil_l. by apply prefixb_split.
  - destruct (Js.prefixb closer (String c s)) eqn:E.
    + intros [= <-]. split; [|done]. exists (Js.drop (String.length closer) (String c s)).
      rewrite append_nil_l. by apply prefixb_split.
    + destruct (UrlRegex.is_line_terminator c) eqn:Ht; [done|].
      destruct (UrlRegex.lazy_until closer s) as [r'|] eqn:El; [|done].
      intros [= <-]. destruct (IH r' eq_refl) as [[rest Hs] Ha].
      split; [|by simpl; rewrite Ht, Ha].
      exists rest. rewrite append_cons. by f_equal.
Qed.

Lemma match_at_sound (s quote ref : string) :
  UrlRegex.match_at s = Some (quote, ref) ->
  s = UrlRegex.token quote ref
      +:+ Js.drop (String.length (UrlRegex.token quote ref)) s
  /\ (quote = EmptyString
      \/ quote = String UrlRegex.squote EmptyString
      \/ quote = String UrlRegex.dquote EmptyString)
  /\ all_chars (fun c => negb (UrlRegex.is_line_terminator c)) ref = true.
Proof.
  unfold UrlRegex.match_at. destruct (Js.prefixb "url(" s) eqn:Hp; [|done].
  apply prefixb_split in Hp. simpl String.length in Hp.
  set (r := Js.drop 4 s) in *.
  assert (forall ref',
            UrlRegex.lazy_until ")" r = Some ref' ->
            s = UrlRegex.token "" ref'
                +:+ Js.drop (String.length (UrlRegex.token "" ref')) s
            /\ all_chars (fun c => negb (UrlRegex.is_line_terminator c)) ref' = true)
    as Hunq.
  { intros ref' Hl. apply lazy_until_sound in Hl as [[rest Hr] Ha]. split; [|done].
    apply (starts_with_drop _ rest). unfold UrlRegex.token.
    rewrite Hp, Hr, !append_nil_l, !append_assoc. reflexivity. }
  assert (forall q r' ref',
            r = String q r' ->
            UrlRegex.lazy_until (String q ")") r' = Some ref' ->
            s = UrlRegex.token (String q "") ref'
                +:+ Js.drop (String.length (UrlRegex.token (String q "") ref')) s
            /\ all_chars (fun c => negb (UrlRegex.is_line_terminator c)) ref' = true)
    as Hq.
  { intros q r' ref' Hr' Hl. apply lazy_until_sound in Hl as [[rest Hr] Ha]. split; [|done].
    apply (starts_with_drop _ rest). unfold UrlRegex.token.
    rewrite Hp, Hr', Hr, !append_assoc. reflexivity. }
  destruct r as [|q r'] eqn:Er.
  - destruct (UrlRegex.lazy_until ")" "") as [ref'|] eqn:El; [|done].
    intros [= <- <-]. destruct (Hunq ref' ltac:(first [reflexivity|assumption])). auto.
  - destruct (UrlRegex.is_quote q) eqn:Hisq.
    + destruct (UrlRegex.lazy_until (String q ")") r') as [ref'|] eqn:El.
      * intros [= <- <-]. destruct (Hq q r' ref' eq_refl ltac:(first [reflexivity|assumption])) as [Hs1 Hs2].
        split; [done|]. split; [|done].
        unfold UrlRegex.is_quote in Hisq. apply orb_prop in Hisq as [Hc|Hc];
          apply Ascii.eqb_eq in Hc as ->; auto.
      * destruct (UrlRegex.lazy_until ")" (String q r')) as [ref'|] eqn:El'; [|done].
        intros [= <- <-]. destruct (Hunq ref' ltac:(first [reflexivity|assumption])). auto.
    + destruct (UrlRegex.lazy_until ")" (String q r')) as [ref'|] eqn:El'; [|done].
      intros [= <- <-]. destruct (Hunq ref' ltac:(first [reflexivity|assumption])). auto.
Qed.

(** X3. A match of the pattern at the start of a text is a token
    [url(] quote ref quote [)] that the text starts with; the quote is
    empty, a single quote or a double quote, and the reference contains no
    line terminator. *)
Theorem match_is_a_prefix_token (s quote ref : string) :
  UrlRegex.match_at s = Some (quote, ref) ->
  s = UrlRegex.token quote ref
      +:+ Js.drop (String.length (UrlRegex.token quote ref)) s
  /\ (quote = EmptyString
      \/ quote = String UrlRegex.squote EmptyString
      \/ quote = String UrlRegex.dquote EmptyString)
  /\ all_chars (fun c => negb (UrlRegex.is_line_terminator c)) ref = true.
Proof. apply match_at_sound. Qed.

Lemma drop_cons_pos n c s : 1 <= n -> Js.drop n (String c s) = Js.drop (n - 1) s.
Proof. destruct n; [lia|]. intros _. simpl. by rewrite Nat.sub_0_r. Qed.

Lemma replace_from_skip cb : forall s k,
  UrlRegex.replace_from cb k s = UrlRegex.replace_from cb 0 (Js.drop k s).
Proof.
  induction s as [|c s IH]; intros k.
  - by rewrite drop_nil.
  - destruct k as [|k]; [done|]. simpl. apply IH.
Qed.

Lemma exec_all_from_skip : forall s k,
  UrlRegex.exec_all_from k s = UrlRegex.exec_all_from 0 (Js.drop k s).
Proof.
  induction s as [|c s IH]; intros k.
  - by rewrite drop_nil.
  - destruct k as [|k]; [done|]. simpl. apply IH.
Qed.

Lemma token_length_pos q r : 1 <= String.length (UrlRegex.token q r).
Proof. unfold UrlRegex.token. rewrite !append_cons. simpl. lia. Qed.

(** The two equations of the global scan: a position without a match keeps
    its character; a match is handed to the callback and the scan resumes
    right after it. *)
Lemma replace_no_match cb c s :
  UrlRegex.match_at (String c s) = None ->
  UrlRegex.replace cb (String c s) = String c (UrlRegex.replace cb s).
Proof. unfold UrlRegex.replace. simpl. by intros ->. Qed.

Lemma replace_match cb s q r :
  UrlRegex.match_at s = Some (q, r) ->
  UrlRegex.replace cb s
  = cb (UrlRegex.token q r) q r
    +:+ UrlRegex.replace cb (Js.drop (String.length (UrlRegex.token q r)) s).
Proof.
  intros Hm. destruct s as [|c s]; [done|].
  unfold UrlRegex.replace. simpl UrlRegex.replace_from at 1. rewrite Hm.
  rewrite replace_from_skip. by rewrite drop_cons_pos by apply token_length_pos.
Qed.

Lemma exec_all_no_match c s :
  UrlRegex.match_at (String c s) = None ->
  UrlRegex.exec_all (String c s) = UrlRegex.exec_all s.
Proof. unfold UrlRegex.exec_all. simpl. by intros ->. Qed.

Lemma exec_all_match s q r :
  UrlRegex.match_at s = Some (q, r) ->
  UrlRegex.exec_all s
  = (q, r) :: UrlRegex.exec_all (Js.drop (String.length (UrlRegex.token q r)) s).
Proof.
  intros Hm. destruct s as [|c s]; [done|].
  unfold UrlRegex.exec_all. simpl UrlRegex.exec_all_from at 1. rewrite Hm.
  rewrite exec_all_from_skip. by rewrite drop_cons_pos by apply token_length_pos.
Qed.

Lemma drop_length_le k : forall s, String.length (Js.drop k s) <= String.length s - k.
Proof.
  induction k as [|k IH]; intros s; simpl; [lia|].
  destruct s as [|c s]; simpl; [lia|]. apply IH.
Qed.

(** An induction principle that follows the scan. *)
Lemma scan_ind (Q : string -> Prop) :
  Q EmptyString ->
  (forall c s, UrlRegex.match_at (String c s) = None -> Q s -> Q (String c s)) ->
  (forall s q r, UrlRegex.match_at s = Some (q, r) ->
                 Q (Js.drop (String.length (UrlRegex.token q r)) s) -> Q s) ->
  forall s, Q s.
Proof.
  intros H0 Hn Hm s.
  remember (String.length s) as n eqn:Hlen. revert s Hlen.
  induction n as [n IH] using lt_wf_ind. intros s ->.
  destruct (UrlRegex.match_at s) as [[q r]|] eqn:E.
  - apply (Hm s q r E). eapply IH; [|reflexivity].
    pose proof (drop_length_le (String.length (UrlRegex.token q r)) s).
    pose proof (token_length_pos q r).
    destruct s as [|c s]; [done|]. simpl in *. lia.
  - destruct s as [|c s]; [done|]. apply Hn; [done|].
    eapply IH; [|reflexivity]. simpl. lia.
Qed.

(** X4. Replacing every match by itself gives the text back: the scan
    keeps all text outside the matches and passes each match whole to the
    callback. *)
Theorem replace_by_itself_is_identity (s : string) :
  UrlRegex.replace (fun m _ _ => m) s = s.
Proof.
  induction s as [|c s Hno IH|s q r Hm IH] using scan_ind.
  - done.
  - rewrite replace_no_match by done. by rewrite IH.
  - rewrite (replace_match _ s q r Hm), IH.
    symmetry. by apply match_at_sound.
Qed.

(** *** The CSS reference rewriter *)

Lemma extract_one_cases u q r m :
  (extract_one P u (q, r) = [] /\ rewrite_token P u m q r = m)
  \/ (exists a,
        extract_one P u (q, r) = [a]
        /\ placeholder a = "../" +:+ ("assets/" +:+ getFilenameFromUrl P (sub_url a) other)
        /\ rewrite_token P u m q r = "url(" +:+ q +:+ placeholder a +:+ q +:+ ")").
Proof.
  unfold extract_one, rewrite_token. simpl.
  destruct (excluded r); [by left|].
  destruct (newURL P r (Some u)) as [abs|]; [|by left].
  right. eexists. split; [reflexivity|]. simpl. split; [done|].
  by rewrite !append_assoc.
Qed.

(** X5. The extraction pass and the rewrite pass of [processCssAssets]
    agree on every token: a reference that is excluded ([data:], fragment)
    or does not resolve is not collected and its token is left as it is; any
    other reference is collected once, and its token is rewritten, with the
    same quote, to the placeholder [../assets/name], where [assets/name] is
    the archive path the sub-download stores the blob under. *)
Theorem extraction_and_rewrite_agree (u quote ref m : string) :
  (extract_one P u (quote, ref) = [] /\ rewrite_token P u m quote ref = m)
  \/ (exists a,
        extract_one P u (quote, ref) = [a]
        /\ placeholder a = "../" +:+ ("assets/" +:+ getFilenameFromUrl P (sub_url a) other)
        /\ rewrite_token P u m quote ref
           = "url(" +:+ quote +:+ placeholder a +:+ quote +:+ ")").
Proof. apply extract_one_cases. Qed.

Lemma rewrite_pass_unchanged u : forall s,
  extract P s u = [] -> rewrite_pass P u s = s.
Proof.
  unfold extract, rewrite_pass.
  induction s as [|c s Hno IH|s q r Hm IH] using scan_ind.
  - done.
  - rewrite exec_all_no_match, replace_no_match by done. intros H. by rewrite IH.
  - rewrite (exec_all_match s q r Hm), (replace_match _ s q r Hm).
    change (flat_map ?f (?x :: ?l)) with (f x ++ flat_map f l).
    intros [H1 H2]%app_eq_nil. rewrite (IH H2).
    destruct (extract_one_cases u q r (UrlRegex.token q r)) as [[_ ->]|(a & Ha & _)].
    + symmetry. by apply match_at_sound.
    + by rewrite Ha in H1.
Qed.

(** X6. A stylesheet from which nothing is collected (it has no [url(]
    token, or only excluded or unresolvable references) passes through
    [processCssAssets] unchanged: no URL is claimed, no request is made, and
    the text stored for it is the text that was fetched. *)
Theorem stylesheet_without_references_is_kept (u f z cssText : string) (c : Crawler) :
  extract P cssText u = [] ->
  resume P (CssText u f z cssText) c = Some (c, Store u css f z (Text cssText)).
Proof.
  intros He. simpl. rewrite He. simpl. by rewrite rewrite_pass_unchanged.
Qed.

Lemma split_join_from_absent needle repl : forall s,
  occurs needle s = false -> Js.split_join_from needle repl 0 s = s.
Proof.
  induction s as [|c s IH]; [done|]. simpl.
  intros [Hp Ho]%orb_false_elim. rewrite Hp. by rewrite IH.
Qed.

(** X7. The textual substitution made for a collected sub-asset
    ([split(url).join(placeholder)]) leaves a stylesheet unchanged when the
    absolute URL of the sub-asset does not occur in it, as is the case for
    relative references. *)
Theorem substitution_needs_an_occurrence (a : SubAsset) (text : string) :
  occurs (sub_url a) text = false -> substitute a text = text.
Proof.
  unfold substitute, Js.split_join. intros Ho.
  destruct (sub_url a) as [|x n] eqn:E.
  - by destruct text.
  - by apply split_join_from_absent.
Qed.

(** *** Discovery *)

Lemma discover_app (d1 d2 : Document) (base : string) :
  discover P (d1 ++ d2) base = discover P d1 base ++ discover P d2 base.
Proof. unfold discover, Document. by rewrite filter_app, flat_map_app. Qed.

Lemma discover_cons el (d : Document) (base : string) :
  discover P (el :: d) base
  = (if scanned el then discover_one P base el else []) ++ discover P d base.
Proof.
  unfold discover, Document. rewrite filter_cons.
  destruct (decide (scanned el)) as [H|H]; destruct (scanned el); simpl in *; tauto.
Qed.

Lemma discover_one_cases base el :
  let src := fst (classify el) in
  (discover_one P base el = []
   /\ (src = EmptyString \/ excluded src = true \/ newURL P src (Some base) = None))
  \/ (exists abs,
        discover_one P base el = [mkItem (href abs) (snd (classify el))]
        /\ src <> EmptyString /\ excluded src = false
        /\ newURL P src (Some base) = Some abs).
Proof.
  unfold discover_one. destruct (classify el) as [src t]. simpl.
  destruct src as [|x src]; [left; auto|].
  destruct (excluded (String x src)) eqn:E; [left; auto|].
  destruct (newURL P (String x src) (Some base)) as [abs|]; [right|left; auto].
  exists abs. by repeat split.
Qed.

Lemma elem_of_discover (doc : Document) (base : string) (it : QueueItem) :
  it ∈ discover P doc base <->
  exists el abs,
    el ∈ doc /\ scanned el
    /\ fst (classify el) <> EmptyString /\ excluded (fst (classify el)) = false
    /\ newURL P (fst (classify el)) (Some base) = Some abs
    /\ it = mkItem (href abs) (snd (classify el)).
Proof.
  induction doc as [|el doc IH].
  - split; [by intros ?%elem_of_nil|]. by intros (el & abs & ?%elem_of_nil & _).
  - rewrite discover_cons, elem_of_app, IH. split.
    + intros [Hin|(el' & abs & Hel & H)].
      * destruct (scanned el) eqn:Hs; [|by apply elem_of_nil in Hin].
        destruct (discover_one_cases base el) as [[Hd _]|(abs & Hd & H1 & H2 & H3)];
          rewrite Hd in Hin; [by apply elem_of_nil in Hin|].
        apply list_elem_of_singleton in Hin as ->.
        exists el, abs. rewrite Hs. repeat split; try done. by left.
      * exists el', abs. split; [by right|done].
    + intros (el' & abs & Hel & Hs & H1 & H2 & H3 & ->).
      apply elem_of_cons in Hel as [->|Hel].
      * left. destruct (scanned el); [|done].
        destruct (discover_one_cases base el) as [[_ [H|[H|H]]]|(abs' & -> & _ & _ & H3')];
          try congruence.
        rewrite H3 in H3'. injection H3' as <-. by apply list_elem_of_singleton.
      * right. exists el', abs. by repeat split.
Qed.

(** X8. The queue built by [processAssets] holds exactly one item for
    every scanned element whose reference is not empty, is neither a
    [data:] URI nor a fragment, and resolves against the base URL; the item
    carries the resolved URL and the type of the element.  An element that
    is not scanned, or whose reference is empty, excluded or unresolvable,
    contributes nothing. *)
Theorem queue_items_come_from_elements (doc : Document) (base : string) (it : QueueItem) :
  it ∈ discover P doc base <->
  exists el abs,
    el ∈ doc /\ scanned el
    /\ fst (classify el) <> EmptyString /\ excluded (fst (classify el)) = false
    /\ newURL P (fst (classify el)) (Some base) = Some abs
    /\ it = mkItem (href abs) (snd (classify el)).
Proof. apply elem_of_discover. Qed.

Lemma classify_type el : scanned el -> is_scanned_type (snd (classify el)).
Proof.
  unfold scanned, classify.
  destruct (has_tag "LINK" el && attr_is "rel" "stylesheet" el); [done|].
  destruct (has_tag "SCRIPT" el); [done|].
  destruct (has_tag "IMG" el); [done|].
  destruct (has_tag "SOURCE" el); [done|]. simpl. tauto.
Qed.

Lemma discover_types (doc : Document) (base : string) :
  Forall (fun it => is_scanned_type (item_type it)) (discover P doc base).
Proof.
  apply Forall_forall. intros it Hit.
  apply elem_of_discover in Hit as (el & abs & _ & Hs & _ & _ & _ & ->).
  simpl. by apply classify_type.
Qed.

Lemma discover_one_length base el : length (discover_one P base el) <= 1.
Proof.
  destruct (discover_one_cases base el) as [[-> _]|(abs & -> & _)]; simpl; lia.
Qed.

(** X9. An element whose reference is empty, a [data:] URI, a fragment or
    unresolvable is ignored by the scan: the queue, and with it
    [assetsFound], is the same as for the document without the element. *)
Theorem excluded_reference_is_ignored (d1 d2 : Document) (el : Element) (base : string) :
  fst (classify el) = EmptyString
  \/ excluded (fst (classify el)) = true
  \/ newURL P (fst (classify el)) (Some base) = None ->
  discover P (d1 ++ el :: d2) base = discover P (d1 ++ d2) base.
Proof.
  intros H. rewrite !discover_app, discover_cons.
  destruct (scanned el); [|done].
  destruct (discover_one_cases base el) as [[-> _]|(abs & _ & H1 & H2 & H3)]; [done|].
  destruct H as [H|[H|H]]; congruence.
Qed.

(** X10. The queue follows the document: the queue of a concatenation is
    the concatenation of the queues, every element yields at most one item
    (so the queue is no longer than the list of scanned elements), and every
    item has one of the types [css], [js], [image], [video]; the types
    [font] and [other] are never assigned. *)
Theorem queue_follows_document (d1 d2 : Document) (base : string) :
  discover P (d1 ++ d2) base = discover P d1 base ++ discover P d2 base
  /\ length (discover P d1 base) <= length (filter (fun el => scanned el) d1)
  /\ Forall (fun it => is_scanned_type (item_type it)) (discover P d1 base).
Proof.
  split; [apply discover_app|]. split; [|apply discover_types].
  induction d1 as [|el d IH]; [done|].
  rewrite discover_cons, length_app. unfold Document in *. rewrite filter_cons.
  pose proof (discover_one_length base el).
  destruct (decide (scanned el)) as [Hs|Hs]; destruct (scanned el); simpl in *; try tauto; lia.
Qed.

(** *** Rewriting the document *)

Lemma getAttribute_set_attr name value l :
  getAttribute name (set_attr name value l) = Some value.
Proof.
  induction l as [|[k v] l IH]; simpl.
  - by rewrite String.eqb_refl.
  - destruct (String.eqb k name) eqn:E; simpl; rewrite E; [done|exact IH].
Qed.

Lemma getAttribute_set_attr_ne name name' value l :
  name' <> name -> getAttribute name' (set_attr name value l) = getAttribute name' l.
Proof.
  intros Hne. induction l as [|[k v] l IH]; simpl.
  - destruct (String.eqb_spec name name'); [congruence|done].
  - destruct (String.eqb_spec k name) as [->|Hk]; simpl.
    + destruct (String.eqb_spec name name'); [congruence|done].
    + destruct (String.eqb k name'); [done|exact IH].
Qed.

Lemma set_attr_names name value l v :
  getAttribute name l = Some v -> map fst (set_attr name value l) = map fst l.
Proof.
  induction l as [|[k v'] l IH]; simpl; [done|].
  destruct (String.eqb k name); simpl; [done|]. intros H. f_equal. by apply IH.
Qed.

(** What one loop of [rewriteHtml] does to an element: nothing, or it sets
    the attribute, which the element already has, to a new value. *)
Lemma rewrite_element_cases c sel attr folder el :
  rewrite_element P c sel attr folder el = el
  \/ exists v asset,
       sel el = true /\ getAttribute attr (attrs el) = Some v /\ v <> EmptyString
       /\ assets c !! resolveUrl P c v = Some asset
       /\ rewrite_element P c sel attr folder el
          = setAttribute attr (folder +:+ "/" +:+ filename asset) el.
Proof.
  unfold rewrite_element. destruct (sel el); [|by left].
  destruct (getAttribute attr (attrs el)) as [[|x v]|] eqn:E; [by left| |by left].
  destruct (assets c !! resolveUrl P c (String x v)) as [asset|] eqn:Ea; [|by left].
  right. exists (String x v), asset. by repeat split.
Qed.

Lemma rewrite_element_frame c sel attr folder el :
  let el' := rewrite_element P c sel attr folder el in
  tagName el' = tagName el /\ ancestors el' = ancestors el /\ hrefProp el' = hrefProp el
  /\ map fst (attrs el') = map fst (attrs el)
  /\ (forall name, name <> attr ->
        getAttribute name (attrs el') = getAttribute name (attrs el))
  /\ has_attr attr el' = has_attr attr el.
Proof.
  destruct (rewrite_element_cases c sel attr folder el) as [->|(v & a & _ & Hv & _ & _ & ->)];
    simpl; [by repeat split|].
  repeat split; try done.
  - by eapply set_attr_names.
  - intros name Hne. by apply getAttribute_set_attr_ne.
  - unfold has_attr. simpl. by rewrite getAttribute_set_attr, Hv.
Qed.

Lemma has_tag_exclusive a b el : has_tag a el = true -> a <> b -> has_tag b el = false.
Proof.
  unfold has_tag. intros ->%String.eqb_eq Hne.
  destruct (String.eqb_spec a b); [congruence|done].
Qed.

Lemma rewrite_element_sel c sel sel' attr folder el :
  sel el = sel' el ->
  rewrite_element P c sel attr folder el = rewrite_element P c sel' attr folder el.
Proof. unfold rewrite_element. by intros ->. Qed.

Lemma rewrite_element_skip c sel attr folder el :
  sel el = false -> rewrite_element P c sel attr folder el = el.
Proof. unfold rewrite_element. by intros ->. Qed.

Lemma has_tag_rewrite_element c sel attr folder el t :
  has_tag t (rewrite_element P c sel attr folder el) = has_tag t el.
Proof.
  unfold has_tag. by destruct (rewrite_element_frame c sel attr folder el) as (-> & _).
Qed.

Lemma rewriteHtml_element c el :
  rewrite_element P c
    (fun el => (has_tag "SOURCE" el || has_tag "VIDEO" el) && has_attr "src" el) "src" "assets"
    (rewrite_element P c (fun el => has_tag "IMG" el && has_attr "src" el) "src" "images"
       (rewrite_element P c (fun el => has_tag "SCRIPT" el && has_attr "src" el) "src" "js"
          (rewrite_element P c
             (fun el => has_tag "LINK" el && attr_is "rel" "stylesheet" el) "href" "css" el)))
  = match rewrite_target el with
    | Some (attr, folder) => rewrite_element P c (fun _ => true) attr folder el
    | None => el
    end.
Proof.
  unfold rewrite_target.
  destruct (has_tag "LINK" el && attr_is "rel" "stylesheet" el) eqn:E1.
  { apply andb_prop in E1 as [Ht Hr].
    set (el1 := rewrite_element P c _ "href" "css" el).
    assert (forall t, "LINK" <> t -> has_tag t el1 = false) as Hex.
    { intros t Hne. unfold el1. rewrite has_tag_rewrite_element.
      by apply (has_tag_exclusive "LINK"). }
    rewrite (rewrite_element_skip c _ "src" "js" el1) by (by rewrite Hex).
    rewrite (rewrite_element_skip c _ "src" "images" el1) by (by rewrite Hex).
    rewrite (rewrite_element_skip c _ "src" "assets" el1) by (by rewrite !Hex).
    apply rewrite_element_sel. by rewrite Ht, Hr. }
  rewrite (rewrite_element_skip c _ "href" "css" el E1).
  destruct (has_tag "SCRIPT" el && has_attr "src" el) eqn:E2.
  { apply andb_prop in E2 as [Ht Hr].
    set (el1 := rewrite_element P c _ "src" "js" el).
    assert (forall t, "SCRIPT" <> t -> has_tag t el1 = false) as Hex.
    { intros t Hne. unfold el1. rewrite has_tag_rewrite_element.
      by apply (has_tag_exclusive "SCRIPT"). }
    rewrite (rewrite_element_skip c _ "src" "images" el1) by (by rewrite Hex).
    rewrite (rewrite_element_skip c _ "src" "assets" el1) by (by rewrite !Hex).
    apply rewrite_element_sel. by rewrite Ht, Hr. }
  rewrite (rewrite_element_skip c _ "src" "js" el E2).
  destruct (has_tag "IMG" el && has_attr "src" el) eqn:E3.
  { apply andb_prop in E3 as [Ht Hr].
    set (el1 := rewrite_element P c _ "src" "images" el).
    assert (forall t, "IMG" <> t -> has_tag t el1 = false) as Hex.
    { intros t Hne. unfold el1. rewrite has_tag_rewrite_element.
      by apply (has_tag_exclusive "IMG"). }
    rewrite (rewrite_element_skip c _ "src" "assets" el1) by (by rewrite !Hex).
    apply rewrite_element_sel. by rewrite Ht, Hr. }
  rewrite (rewrite_element_skip c _ "src" "images" el E3).
  destruct ((has_tag "SOURCE" el || has_tag "VIDEO" el) && has_attr "src" el) eqn:E4.
  - apply rewrite_element_sel. by rewrite E4.
  - by apply rewrite_element_skip.
Qed.

Lemma rewriteHtml_single_pass c (doc : Document) :
  rewriteHtml P c doc
  = map (fun el => match rewrite_target el with
                   | Some (attr, folder) => rewrite_element P c (fun _ => true) attr folder el
                   | None => el
                   end) doc.
Proof.
  unfold rewriteHtml. rewrite !map_map. apply map_ext. intros el.
  apply rewriteHtml_element.
Qed.

(** X11. The four loops of [rewriteHtml] amount to a single pass over
    the document: their selectors exclude each other, so each element is
    handled by at most one loop, the one [rewrite_target] names, with that
    loop's attribute and folder prefix. *)
Theorem rewriteHtml_is_one_pass c (doc : Document) :
  rewriteHtml P c doc
  = map (fun el => match rewrite_target el with
                   | Some (attr, folder) => rewrite_element P c (fun _ => true) attr folder el
                   | None => el
                   end) doc.
Proof. apply rewriteHtml_single_pass. Qed.

Lemma lookup_map {A B} (f : A -> B) (l : list A) : forall k,
  map f l !! k = f <$> (l !! k).
Proof. induction l as [|a l IH]; intros [|k]; simpl; auto. Qed.

(** X12. [rewriteHtml] changes nothing but attribute values: the
    document keeps its length, and every element keeps its tag, its
    ancestors and the names and order of its attributes. *)
Theorem rewriteHtml_keeps_structure c (doc : Document) :
  length (rewriteHtml P c doc) = length doc
  /\ Forall2 (fun el el' =>
                tagName el' = tagName el /\ ancestors el' = ancestors el
                /\ hrefProp el' = hrefProp el
                /\ map fst (attrs el') = map fst (attrs el))
       doc (rewriteHtml P c doc).
Proof.
  rewrite rewriteHtml_single_pass. split; [by rewrite length_map|].
  induction doc as [|el doc IH]; simpl; constructor; [|exact IH].
  destruct (rewrite_target el) as [[attr folder]|]; [|done].
  destruct (rewrite_element_frame c (fun _ => true) attr folder el) as (?&?&?&?&_).
  done.
Qed.

(** X13. When no asset is registered (every download failed or the page
    has no assets), [rewriteHtml] returns the document as it is. *)
Theorem rewriteHtml_without_assets c (doc : Document) :
  assets c = ∅ -> rewriteHtml P c doc = doc.
Proof.
  intros He. rewrite rewriteHtml_single_pass.
  induction doc as [|el doc IH]; simpl; [done|]. rewrite IH. f_equal.
  destruct (rewrite_target el) as [[attr folder]|]; [|done].
  destruct (rewrite_element_cases c (fun _ => true) attr folder el)
    as [->|(v & a & _ & _ & _ & Ha & _)]; [done|].
  by rewrite He, lookup_empty in Ha.
Qed.

(** X14. An element that one of the loops of [rewriteHtml] handles and
    whose reference, resolved against the page URL, is registered gets the
    loop's folder and the asset's file name as the new value of its
    attribute; reading the attribute back gives that value.  When the
    reference is empty or not registered the element is unchanged. *)
Theorem reference_rewritten_iff_registered c (doc : Document) k el attr folder v :
  doc !! k = Some el ->
  rewrite_target el = Some (attr, folder) ->
  getAttribute attr (attrs el) = Some v ->
  match assets c !! resolveUrl P c v with
  | Some asset =>
      if decide (v = EmptyString) then rewriteHtml P c doc !! k = Some el
      else exists el',
          rewriteHtml P c doc !! k = Some el'
          /\ el' = setAttribute attr (folder +:+ "/" +:+ filename asset) el
          /\ getAttribute attr (attrs el') = Some (folder +:+ "/" +:+ filename asset)
  | None => rewriteHtml P c doc !! k = Some el
  end.
Proof.
  intros Hk Ht Hv.
  assert (rewriteHtml P c doc !! k
          = Some (rewrite_element P c (fun _ => true) attr folder el)) as ->.
  { unfold Document in *. rewrite rewriteHtml_single_pass, lookup_map, Hk. simpl. by rewrite Ht. }
  unfold rewrite_element. rewrite Hv.
  destruct (assets c !! resolveUrl P c v) as [asset|] eqn:Ha.
  - case_decide as Hz; [by subst v|].
    destruct v as [|x v]; [done|]. rewrite ?Ha.
    eexists. split; [reflexivity|]. split; [done|]. simpl. apply getAttribute_set_attr.
  - destruct v as [|x v]; [done|]. by rewrite ?Ha.
Qed.

(** *** What [start] maintains *)

Lemma snapshot_ok_updateStats up c : snapshot_ok (updateStats up c).
Proof. right. simpl. by rewrite last_snoc. Qed.

Lemma snapshot_ok_frame c c' :
  stats c' = stats c -> onStatsUpdate c' = onStatsUpdate c ->
  snapshot_ok c -> snapshot_ok c'.
Proof. unfold snapshot_ok. by intros -> ->. Qed.

Lemma quiet_refl c : quiet c c.
Proof. by split. Qed.

Lemma quiet_trans c1 c2 c3 : quiet c1 c2 -> quiet c2 c3 -> quiet c1 c3.
Proof. intros [H1 H2] [H3 H4]. split; [auto|congruence]. Qed.

Lemma quiet_log m l c : l <> ERROR -> quiet c (log m l c).
Proof.
  intros Hl. split; [by apply snapshot_ok_frame|].
  rewrite count_lines_log. unfold is_error_line. simpl.
  rewrite bool_decide_eq_false_2 by done. lia.
Qed.

Lemma quiet_books c c' : same_books c c' -> onLog c' = onLog c -> quiet c c'.
Proof.
  intros (Hs & Hu & _) Hl. split; [by apply snapshot_ok_frame|].
  unfold count_lines. by rewrite Hl.
Qed.

Lemma quiet_body_received body c : quiet c (body_received body c).
Proof. split; [intros _; apply snapshot_ok_updateStats|done]. Qed.

Lemma downloadAsset_start_quiet it c c' t :
  downloadAsset_start P it c = (c', t) -> quiet c c'.
Proof.
  unfold downloadAsset_start. case_decide; intros [= <- <-]; [apply quiet_refl|].
  split; [by apply snapshot_ok_frame|].
  erewrite (count_lines_app _ c) by reflexivity. rewrite count_cons. simpl. lia.
Qed.

Lemma start_all_quiet chunk : forall c c' ts,
  start_all P chunk c = (c', ts) -> quiet c c'.
Proof.
  induction chunk as [|it chunk IH]; intros c c' ts; simpl.
  - intros [= <- <-]. apply quiet_refl.
  - destruct (downloadAsset_start P it c) as [c1 t] eqn:E1.
    destruct (start_all P chunk c1) as [c2 ts'] eqn:E.
    intros [= <- <-]. eapply quiet_trans; [by eapply downloadAsset_start_quiet|eauto].
Qed.

Lemma css_loop_quiet u f z todo processed c c' t :
  css_loop P u f z todo processed c = (c', t) -> quiet c c'.
Proof.
  intros E. apply quiet_books; [by eapply css_loop_books|].
  by apply css_loop_zip in E as (_ & _ & _ & ?).
Qed.

Lemma respond_quiet net t c c' t' :
  respond P net t c = Some (c', t') -> quiet c c'.
Proof.
  destruct t; simpl; try done.
  - destruct (fetchWithProxy P net u); intros [= <- <-];
      [apply quiet_body_received|apply quiet_log; discriminate].
  - destruct (fetchWithProxy P net _); [intros [= <- <-]; apply quiet_body_received|].
    unfold css_next. destruct (css_loop _ _ _ _ _ _ _) as [c1 t1] eqn:E. intros [= <- <-].
    eapply quiet_trans; [|by eapply css_loop_quiet]. apply quiet_log; discriminate.
Qed.

Lemma resume_quiet t c c' t' :
  resume P t c = Some (c', t') -> quiet c c'.
Proof.
  destruct t; simpl; try done.
  - destruct (css_loop _ _ _ _ _ _ _) as [c1 t1] eqn:E. intros [= <- <-].
    by eapply css_loop_quiet.
  - unfold css_next. destruct (css_loop _ _ _ _ _ _ _) as [c1 t1] eqn:E. intros [= <- <-].
    eapply quiet_trans; [|by eapply css_loop_quiet].
    split; [by apply snapshot_ok_frame|].
    unfold count_lines. simpl. rewrite filter_app, length_app, count_cons. simpl. lia.
  - intros [= <- <-]. split; [intros _; apply snapshot_ok_updateStats|done].
Qed.

Lemma saved_start_chunk s k : saved (start_chunk P k s) = saved s.
Proof. unfold start_chunk. by destruct (start_all P _ _). Qed.

Lemma start_chunk_quiet s k :
  quiet (crawler s) (crawler (start_chunk P k s))
  /\ stats (crawler (start_chunk P k s)) = stats (crawler s).
Proof.
  destruct (tasks_start_chunk s k) as (c & started & E & -> & _).
  split; [by eapply start_all_quiet|]. by apply start_all_books in E as (? & _).
Qed.

Ltac count_errors :=
  unfold count_lines in *; simpl in *;
  rewrite ?filter_app, ?length_app, ?count_cons; simpl.

Lemma driver_state_step e s s' : driver_state s -> step P e s = Some s' -> driver_state s'.
Proof.
  intros (Hsn & Hsv & Her & Hpg) Hstep. unfold step in Hstep.
  destruct e as [ | | | | |r]; [..|destruct r]; destruct (phase s) eqn:Hph; try done.
  - injection Hstep as <-. unfold driver_state. simpl.
    split; [by apply snapshot_ok_frame with (crawler s)|]. split; [done|].
    split; [count_errors; lia|done].
  - destruct (fetchWithProxy P net _) as [html|err]; injection Hstep as <-;
      unfold driver_state; simpl.
    + split; [apply snapshot_ok_updateStats|]. by repeat split.
    + split; [by apply snapshot_ok_frame with (crawler s)|]. split; [done|].
      split; [count_errors; lia|lia].
  - destruct (tasks s !! k) as [t|] eqn:Hk; simpl in Hstep; [|done].
    destruct (respond P net t (crawler s)) as [[c' t']|] eqn:Hr; simpl in Hstep; [|done].
    injection Hstep as <-. pose proof (respond_quiet _ _ _ _ _ Hr) as [Hq1 Hq2].
    apply respond_stats in Hr as (_ & _ & Hp & _).
    unfold driver_state. simpl. rewrite Hph, Hq2, Hp. auto.
  - destruct (tasks s !! k) as [t|] eqn:Hk; simpl in Hstep; [|done].
    destruct (resume P t (crawler s)) as [[c' t']|] eqn:Hr; simpl in Hstep; [|done].
    injection Hstep as <-. pose proof (resume_quiet _ _ _ _ Hr) as [Hq1 Hq2].
    apply resume_stats in Hr as (_ & _ & Hp & _).
    unfold driver_state. simpl. rewrite Hph, Hq2, Hp. auto.
  - injection Hstep as <-.
    destruct (scan_page_cases html s) as [(Hp & _ & _ & _ & _ & e & Hcr)|[baseUrl ->]].
    + unfold driver_state. rewrite Hp, Hcr.
      split; [right; simpl; by rewrite last_snoc|].
      split; [unfold scan_page; by destruct (querySelector_base _); [destruct (newURL P _ _)|];
              rewrite ?saved_start_chunk|].
      split; [count_errors; lia|simpl; lia].
    + unfold driver_state.
      rewrite phase_start_chunk, saved_start_chunk.
      match goal with |- context [start_chunk P 0 ?s0] =>
        destruct (start_chunk_quiet s0 0) as [[Hq1 Hq2] ->] end.
      rewrite Hq2. simpl.
      split; [apply Hq1; right; simpl; by rewrite last_snoc|].
      split; [done|]. split; [count_errors; lia|done].
  - destruct (forallb is_settled _); [|done].
    destruct (i s + CONCURRENCY <? length (assetQueue s))%nat; injection Hstep as <-.
    + unfold driver_state. rewrite phase_start_chunk, saved_start_chunk.
      destruct (start_chunk_quiet s (i s + CONCURRENCY)) as [[Hq1 Hq2] ->].
      rewrite Hq2. auto.
    + unfold driver_state. simpl.
      split; [by apply snapshot_ok_frame with (crawler s)|]. split; [done|].
      split; [count_errors; lia|done].
  - injection Hstep as <-. unfold driver_state. simpl.
    split; [by apply snapshot_ok_frame with (crawler s)|]. split; [done|].
    split; [count_errors; lia|done].
  - injection Hstep as <-. unfold driver_state. simpl.
    split; [by apply snapshot_ok_frame with (crawler s)|]. split; [done|].
    split; [count_errors; lia|lia].
Qed.

Lemma driver_state_new c u : new_Crawler P u = Ok c -> driver_state (new_session c).
Proof.
  unfold new_Crawler. destruct (newURL P u None); [|done]. intros [= <-].
  split; [by left|]. by repeat split.
Qed.

Lemma reachable_driver_state s : reachable P s -> driver_state s.
Proof.
  apply reachable_invariant; [intros; by eapply driver_state_new|apply driver_state_step].
Qed.

(** X15. The archive is handed to [saveAs] only by a session that ends
    successfully, under the name made of the sanitised host name and
    [_source.zip]; in every other state nothing has been saved. *)
Theorem archive_saved_only_when_finished s :
  reachable P s ->
  match phase s with
  | Finished => saved s = Some (safeName (crawler s) +:+ "_source.zip")
  | _ => saved s = None
  end.
Proof. intros Hr. by destruct (reachable_driver_state s Hr) as (_ & ? & _). Qed.

(** X16. A session logs an [ERROR] line exactly when [start] throws, and
    then exactly one: failures of single assets never produce one. *)
Theorem one_error_line_iff_failed s :
  reachable P s ->
  count_lines is_error_line (crawler s) = match phase s with Errored => 1 | _ => 0 end.
Proof. intros Hr. by destruct (reachable_driver_state s Hr) as (_ & _ & ? & _). Qed.

(** X17. Every change of the counters is reported: the snapshot passed
    last to [onStatsUpdate] is the crawler's current [stats], and as long as
    none was passed all counters are zero. *)
Theorem last_snapshot_is_current s :
  reachable P s ->
  (onStatsUpdate (crawler s) = [] /\ stats (crawler s) = mkStats 0 0 0 0)
  \/ last (onStatsUpdate (crawler s)) = Some (stats (crawler s)).
Proof. intros Hr. by destruct (reachable_driver_state s Hr) as (? & _). Qed.

(** X18. No step of a session lowers a counter: [pagesScanned],
    [assetsFound], [assetsDownloaded] and [totalSize] only grow. *)
Theorem counters_never_decrease s e s' :
  reachable P s -> step P e s = Some s' ->
  stats_le (stats (crawler s)) (stats (crawler s')).
Proof.
  intros Hr Hstep. pose proof (reachable_shape s Hr) as [_ Hsh].
  pose proof (reachable_counted s Hr) as (Hf & Hd & _).
  pose proof (reachable_driver_state s Hr) as (_ & _ & _ & Hpg).
  unfold step in Hstep. unfold stats_le.
  destruct e as [ | | | | |r]; [..|destruct r]; destruct (phase s) eqn:Hph; try done.
  - injection Hstep as <-. simpl. lia.
  - destruct (fetchWithProxy P net _); injection Hstep as <-; simpl; lia.
  - destruct (tasks s !! k) as [t|] eqn:Hk; simpl in Hstep; [|done].
    destruct (respond P net t (crawler s)) as [[c' t']|] eqn:Hr'; simpl in Hstep; [|done].
    injection Hstep as <-. simpl. pose proof (respond_totalSize _ _ _ _ _ Hr').
    apply respond_stats in Hr' as (? & ? & ? & _). lia.
  - destruct (tasks s !! k) as [t|] eqn:Hk; simpl in Hstep; [|done].
    destruct (resume P t (crawler s)) as [[c' t']|] eqn:Hr'; simpl in Hstep; [|done].
    injection Hstep as <-. simpl.
    apply resume_stats in Hr' as (? & ? & ? & ? & _). lia.
  - injection Hstep as <-. rewrite Hsh in Hf. simpl in Hf.
    destruct (scan_page_cases html s) as [(_ & _ & _ & _ & _ & e & ->)|[baseUrl ->]].
    + simpl. lia.
    + match goal with |- context [start_chunk P 0 ?s0] =>
        destruct (start_chunk_quiet s0 0) as [_ ->] end.
      simpl. lia.
  - destruct (forallb is_settled _); [|done].
    destruct (i s + CONCURRENCY <? length (assetQueue s))%nat; injection Hstep as <-.
    + destruct (start_chunk_quiet s (i s + CONCURRENCY)) as [_ ->]. lia.
    + simpl. lia.
  - injection Hstep as <-. simpl. lia.
  - injection Hstep as <-. simpl. lia.
Qed.

End Properties.

(** ** Worked sessions *)

Lemma downloaded_le_found_witness :
  exists s,
    session_after (Toy.platform Example.styled_page) "https://example.com/" Example.styled_run
    = Some s
    /\ Forall (fun st => assetsDownloaded st <= assetsFound st) (onStatsUpdate (crawler s))
    /\ assetsDownloaded (stats (crawler s)) <= assetsFound (stats (crawler s)).
Proof.
  destruct (session_after _ _ _) as [s|] eqn:E; [|vm_compute in E; discriminate].
  exists s. split; [reflexivity|].
  apply (downloaded_le_found_always (Toy.platform Example.styled_page)).
  eapply session_after_reachable. exact E.
Defined.

Lemma chunks_run_in_order_witness :
  exists s ta tb,
    session_after (Toy.platform Example.gallery_page) "https://example.com/"
      Example.gallery_first_chunk = Some s
    /\ tasks s !! 0 = Some ta /\ tasks s !! 5 = Some tb
    /\ is_started tb /\ is_settled ta.
Proof.
  destruct (session_after _ _ _) as [s|] eqn:E; [|vm_compute in E; discriminate].
  assert (exists ta tb, tasks s !! 0 = Some ta /\ tasks s !! 5 = Some tb /\ is_started tb)
    as (ta & tb & Ha & Hb & Hst).
  { vm_compute in E. injection E as <-. simpl. eexists _, _. repeat split. }
  exists s, ta, tb. repeat split; try done.
  pose proof (chunks_run_in_order (Toy.platform Example.gallery_page) s
                (session_after_reachable _ _ _ _ E)) as (_ & Hord & _).
  apply (Hord 0 5 ta tb); [vm_compute; lia|done..].
Defined.

Lemma downloader_fetches_once_witness :
  exists s,
    session_after (Toy.platform Example.styled_page) "https://example.com/" Example.styled_run
    = Some s
    /\ fetched (crawler s)
       = [ "https://example.com/"; "https://example.com/css/style.css";
           "https://example.com/css/img.png" ]
    /\ NoDup (asset_requests (crawler s)).
Proof.
  destruct (session_after _ _ _) as [s|] eqn:E; [|vm_compute in E; discriminate].
  exists s. split; [reflexivity|]. split.
  - vm_compute in E. by injection E as <-.
  - apply (downloader_fetches_once (Toy.platform Example.styled_page)).
    eapply session_after_reachable. exact E.
Defined.

(** C2, as stated, fails for the page's own URL: [start] requests it
    without entering it in the visited set, so a page that refers to itself
    has it requested a second time by [downloadAsset]. *)
Lemma page_url_fetched_twice :
  (exists s,
     session_after (Toy.platform Example.self_page) "https://example.com/" Example.self_run
     = Some s
     /\ fetched (crawler s) = [ "https://example.com/"; "https://example.com/" ])
  /\ ~ (forall P s, reachable P s -> NoDup (fetched (crawler s))).
Proof.
  assert (exists s,
     session_after (Toy.platform Example.self_page) "https://example.com/" Example.self_run
     = Some s
     /\ fetched (crawler s) = [ "https://example.com/"; "https://example.com/" ])
    as (s & E & Hf).
  { destruct (session_after _ _ _) as [s|] eqn:E; [|vm_compute in E; discriminate].
    exists s. split; [reflexivity|]. vm_compute in E. by injection E as <-. }
  split; [by exists s|].
  intros H. specialize (H _ s (session_after_reachable _ _ _ _ E)).
  rewrite Hf in H. apply NoDup_cons in H as [Hin _]. apply Hin. by left.
Qed.

(** C5, as stated, fails: two images with the same last path segment on
    different hosts are both registered with the archive path
    [images/x.png]. *)
Lemma archive_paths_collide :
  exists s a1 a2,
    session_after (Toy.platform Example.twin_page) "https://example.com/" Example.twin_run
    = Some s
    /\ assets (crawler s) !! "https://a.example/x.png" = Some a1
    /\ assets (crawler s) !! "https://b.example/x.png" = Some a2
    /\ originalUrl a1 <> originalUrl a2
    /\ path a1 = "images/x.png" /\ path a2 = "images/x.png".
Proof.
  destruct (session_after _ _ _) as [s|] eqn:E; [|vm_compute in E; discriminate].
  vm_compute in E. injection E as <-.
  eexists _, _, _. split; [reflexivity|]. split; [reflexivity|]. split; [reflexivity|].
  simpl. repeat split. discriminate.
Qed.

Lemma archive_paths_by_folder_and_name_witness :
  exists s a1 a2,
    session_after (Toy.platform Example.twin_page) "https://example.com/" Example.twin_run
    = Some s
    /\ assets (crawler s) !! "https://a.example/x.png" = Some a1
    /\ assets (crawler s) !! "https://b.example/x.png" = Some a2
    /\ originalUrl a1 <> originalUrl a2
    /\ (path a1 = path a2 <->
        getFolderForType (type a1) = getFolderForType (type a2)
        /\ filename a1 = filename a2).
Proof.
  destruct (session_after _ _ _) as [s|] eqn:E; [|vm_compute in E; discriminate].
  assert (exists a1 a2,
             assets (crawler s) !! "https://a.example/x.png" = Some a1
             /\ assets (crawler s) !! "https://b.example/x.png" = Some a2)
    as (a1 & a2 & H1 & H2).
  { vm_compute in E. injection E as <-. eexists _, _. split; reflexivity. }
  exists s, a1, a2. split; [reflexivity|]. split; [exact H1|]. split; [exact H2|].
  pose proof (archive_paths_by_folder_and_name (Toy.platform Example.twin_page) s
                "https://a.example/x.png" "https://b.example/x.png" a1 a2
                (session_after_reachable _ _ _ _ E) H1 H2 ltac:(discriminate))
    as (Hne & _ & _ & Hiff).
  split; [exact Hne|exact Hiff].
Defined.


Lemma invalid_url_fails_first_witness :
  newURL (Toy.platform []) "not a url" None = None
  /\ new_Crawler (Toy.platform []) "not a url" = Throw "Invalid URL provided"
  /\ handleStart (Toy.platform []) "not a url" IDLE = (ERROR_STATE, None).
Proof.
  assert (newURL (Toy.platform []) "not a url" None = None) as H by reflexivity.
  pose proof (invalid_url_fails_first (Toy.platform []) "not a url" H) as (H1 & _ & H3 & _).
  split; [exact H|]. split; [exact H1|]. apply H3. discriminate.
Defined.

(** C4 at a page with a [base] element.  The page
    [https://example.com/] declares the base [https://cdn.example/] and
    holds an image with [src = a.png].  Discovery resolves the reference
    against the base, and the image is downloaded and registered under
    [https://cdn.example/a.png] with the path [images/a.png].  [rewriteHtml]
    resolves the same reference against the page URL, finds nothing under
    [https://example.com/a.png] and leaves [src = a.png]; the [base] tag is
    then cut from [index.html]. *)
Theorem rewriter_ignores_base_element :
  exists s asset,
    session_after (Toy.platform Example.based_page) "https://example.com/" Example.based_run
    = Some s
    /\ phase s = AwaitZip
    /\ assetQueue s = [ mkItem "https://cdn.example/a.png" image ]
    /\ assets (crawler s) !! "https://cdn.example/a.png" = Some asset
    /\ path asset = "images/a.png"
    /\ zip (crawler s) !! "images/a.png" = Some (Blob "PNG")
    /\ resolveUrl (Toy.platform Example.based_page) (crawler s) "a.png"
       = "https://example.com/a.png"
    /\ assets (crawler s) !! "https://example.com/a.png" = None
    /\ doc s = Example.based_page
    /\ zip (crawler s) !! "index.html" = Some (Text "<IMG src=a.png>").
Proof.
  destruct (session_after _ _ _) as [s|] eqn:E; [|vm_compute in E; discriminate].
  vm_compute in E. injection E as <-.
  eexists _, _. split; [reflexivity|]. repeat split.
Qed.

(** C7, as stated, fails twice.  A session whose only task, a script,
    succeeds logs the start line of the task and no line for its outcome.
    A session whose only task, a stylesheet with one embedded image,
    succeeds raises [totalSize] twice within that task (from 6 to 41 for the
    stylesheet and to 44 for the image). *)
Lemma success_is_not_logged_and_size_grows_twice :
  (exists s,
     session_after (Toy.platform Example.script_page) "https://example.com/"
       Example.script_run = Some s
     /\ tasks s = [ Settled Succeeded ]
     /\ onLog (crawler s)
        = [ mkLog "Starting crawl for https://example.com/..." INFO;
            mkLog "Main HTML downloaded successfully." SUCCESS;
            mkLog "Found 1 linked assets. Downloading..." INFO;
            mkLog "Fetching https://example.com/app.js..." INFO;
            mkLog "Generated index.html" SUCCESS;
            mkLog "Compressing files..." INFO;
            mkLog "ZIP file downloaded!" SUCCESS ])
  /\ (exists s,
        session_after (Toy.platform Example.styled_page) "https://example.com/"
          Example.styled_run = Some s
        /\ tasks s = [ Settled Succeeded ]
        /\ map totalSize (onStatsUpdate (crawler s)) = [ 6; 6; 6; 41; 44; 44 ]
        /\ map assetsDownloaded (onStatsUpdate (crawler s)) = [ 0; 0; 0; 0; 0; 1 ]).
Proof.
  split.
  - destruct (session_after _ _ _) as [s|] eqn:E; [|vm_compute in E; discriminate].
    vm_compute in E. injection E as <-. eexists. split; [reflexivity|]. by split.
  - destruct (session_after _ _ _) as [s|] eqn:E; [|vm_compute in E; discriminate].
    vm_compute in E. injection E as <-. eexists. split; [reflexivity|]. by repeat split.
Qed.

Lemma task_accounting_witness :
  exists s,
    session_after (Toy.platform Example.styled_page) "https://example.com/"
      Example.styled_run = Some s
    /\ assetsDownloaded (stats (crawler s)) = count_outcome Succeeded (tasks s)
    /\ count_lines is_start_line (crawler s)
       = length (filter (fun t => is_launched t) (tasks s))
    /\ count_lines is_failure_line (crawler s) = count_outcome Failed (tasks s).
Proof.
  destruct (session_after _ _ _) as [s|] eqn:E; [|vm_compute in E; discriminate].
  exists s. split; [reflexivity|].
  pose proof (task_accounting (Toy.platform Example.styled_page) s
                (session_after_reachable _ _ _ _ E)) as (H1 & H2 & H3 & _).
  split; [exact H1|]. split; [exact H2|exact H3].
Defined.

(** C6, as stated, fails on its count.  The page shows one image twice and
    one script; the script fails on all relays.  Exactly one of the three
    tasks fails and the session finishes, but the second image task is
    skipped as already visited, so [assetsDownloaded] is 1 and not
    [assetsFound - 1 = 2]. *)
Lemma one_failure_with_duplicate :
  exists s,
    session_after (Toy.platform Example.repeated_page) "https://example.com/"
      Example.repeated_run = Some s
    /\ phase s = Finished
    /\ tasks s = [ Settled Succeeded; Settled Skipped; Settled Failed ]
    /\ count_outcome Failed (tasks s) = 1
    /\ assetsFound (stats (crawler s)) = 3
    /\ assetsDownloaded (stats (crawler s)) = 1
    /\ assetsDownloaded (stats (crawler s)) <> assetsFound (stats (crawler s)) - 1.
Proof.
  destruct (session_after _ _ _) as [s|] eqn:E; [|vm_compute in E; discriminate].
  vm_compute in E. injection E as <-. eexists. split; [reflexivity|].
  repeat split. simpl. lia.
Qed.

Lemma asset_failure_is_tolerated_witness :
  exists s,
    session_after (Toy.platform Example.gallery_page) "https://example.com/"
      Example.gallery_run = Some s
    /\ phase s = Finished
    /\ Forall (fun t => is_settled t) (tasks s)
    /\ count_outcome Failed (tasks s) = 1 /\ count_outcome Skipped (tasks s) = 0
    /\ assetsFound (stats (crawler s)) = 6
    /\ assetsDownloaded (stats (crawler s)) = assetsFound (stats (crawler s)) - 1.
Proof.
  destruct (session_after _ _ _) as [s|] eqn:E; [|vm_compute in E; discriminate].
  assert (phase s = Finished /\ Forall (fun t => is_settled t) (tasks s)
          /\ count_outcome Failed (tasks s) = 1 /\ count_outcome Skipped (tasks s) = 0
          /\ assetsFound (stats (crawler s)) = 6) as (Hph & Hall & H1 & H0 & H6).
  { vm_compute in E. injection E as <-. split; [reflexivity|].
    split; [repeat constructor|]. repeat split. }
  exists s. split; [reflexivity|]. do 5 (split; [assumption|]).
  pose proof (asset_failure_is_tolerated (Toy.platform Example.gallery_page) s
                (session_after_reachable _ _ _ _ E)) as (_ & _ & _ & _ & Hone).
  exact (Hone Hall H1 H0).
Defined.
